(** * Fraction.hpp: the reduced fraction [dd::Fraction<T>]

    A shallow embedding of the class template [dd::Fraction<T>] of
    [Fraction.hpp] and the properties of its constructors, of the four
    arithmetic operators, of the comparisons and of the printer.

    [T] is a signed fixed-width integer type.  An object of type [T] is a
    [Z] inside the range of [T]; an arithmetic operation whose mathematical
    result leaves that range, a division by zero and the quotient
    [min / -1] have undefined behaviour in C++, which the embedding makes
    an explicit outcome [UB] of the error monad [result]. *)

From Stdlib Require Import ZArith Znumtheory QArith Lia Bool String Ascii.
From Stdlib Require Import Decimal DecimalString DecimalPos DecimalZ.
From Equations Require Import Equations.

Local Open Scope Z_scope.

(** ** Outcomes of an evaluation *)

Inductive undefined : Set :=
| signed_overflow
| division_by_zero.

Inductive result (A : Type) : Type :=
| Ok (x : A)
| UB (why : undefined).

Arguments Ok {A} x.
Arguments UB {A} why.

Definition bind {A B : Type} (m : result A) (k : A -> result B) : result B :=
  match m with
  | Ok x => k x
  | UB why => UB why
  end.

Notation "x <- m ;; k" := (bind m (fun x => k))
  (at level 61, m at next level, right associativity).

(** ** The integer type [T] *)

(** [static_assert(std::is_integral<T>::value)]: the template parameter is
    an integer type, here a signed one of [bits] bits in two's complement.
    Types narrower than [int] are left out, because their operands are
    promoted to [int] before every operation. *)
Class Integral : Set := {
  bits : Z;
  bits_int : (32 <=? bits) = true
}.

#[export] Instance int64_t : Integral := {| bits := 64; bits_int := eq_refl |}.

(** [int32_t], the instance of [main.cpp]. *)
#[export] Instance int32_t : Integral := {| bits := 32; bits_int := eq_refl |}.

Section Arithmetic.

Context {T : Integral}.

Definition T_min : Z := - 2 ^ (bits - 1).
Definition T_max : Z := 2 ^ (bits - 1) - 1.

Definition in_range (z : Z) : bool := (T_min <=? z) && (z <=? T_max).

(** The value of an expression of type [T] whose mathematical value is [z]. *)
Definition representable (z : Z) : result Z :=
  if in_range z then Ok z else UB signed_overflow.

Definition t_neg (x : Z) : result Z := representable (- x).
Definition t_add (x y : Z) : result Z := representable (x + y).
Definition t_sub (x y : Z) : result Z := representable (x - y).
Definition t_mul (x y : Z) : result Z := representable (x * y).

(** [x / y] truncates towards zero. *)
Definition t_div (x y : Z) : result Z :=
  if y =? 0 then UB division_by_zero else representable (Z.quot x y).

(** [x % y] has the sign of [x]; it is undefined where [x / y] is. *)
Definition t_rem (x y : Z) : result Z :=
  if y =? 0 then UB division_by_zero
  else if in_range (Z.quot x y) then Ok (Z.rem x y)
  else UB signed_overflow.

(** ** The private helper [PGCD] *)

(** A value together with the equation that remembers where it came from. *)
Definition inspect {A : Type} (x : A) : {y : A | x = y} := exist _ x eq_refl.

(** The [while (r)] loop of [PGCD], entered with the three locals [a], [b]
    and [r]; every turn strictly shrinks [|r|]. *)
Equations PGCD_loop (a b r : Z) : result Z by wf (Z.abs_nat r) lt :=
  PGCD_loop a b r with Z.eq_dec r 0 := {
    | left _ => Ok b
    | right _ with inspect (t_rem b r) := {
        | exist _ (Ok r') E => PGCD_loop b r r'
        | exist _ (UB why) _ => UB why } }.
Next Obligation.
  unfold t_rem in E. destruct (Z.eqb_spec r 0) as [|Hr]; [discriminate|].
  destruct (in_range _); [|discriminate].
  injection E as <-. pose proof (Z.rem_bound_abs b r Hr). lia.
Defined.

Definition PGCD (a b : Z) : result Z :=
  r <- t_rem a b ;;
  PGCD_loop a b r.

(** ** The class [Fraction<T>] *)

(** The two data members. *)
Record Fraction : Set := { m_num : Z; m_den : Z }.

(** The first statement of [reduction()], "case negative denominator,
    change the numerator and denominator signs". *)
Definition sign_fix (this : Fraction) : result Fraction :=
  if m_den this <? 0 then
    n <- t_mul (m_num this) (-1) ;;
    d <- t_mul (m_den this) (-1) ;;
    Ok {| m_num := n; m_den := d |}
  else Ok this.

(** [reduction()]: the receiver after the call. *)
Definition reduction (this : Fraction) : result Fraction :=
  if negb (m_den this =? 0) then
    this <- sign_fix this ;;
    div <- (if m_num this >=? 0 then PGCD (m_num this) (m_den this)
            else a <- t_mul (-1) (m_num this) ;; PGCD a (m_den this)) ;;
    n <- t_div (m_num this) div ;;
    d <- t_div (m_den this) div ;;
    Ok {| m_num := n; m_den := d |}
  else Ok this.

(** [Fraction<T> (T num=0)]. *)
Definition Fraction1 (num : Z) : Fraction := {| m_num := num; m_den := 1 |}.

Definition Fraction0 : Fraction := Fraction1 0.

(** [Fraction<T> (T num, T den)]. *)
Definition Fraction2 (num den : Z) : result Fraction :=
  this <- (if den >? 0 then Ok {| m_num := num; m_den := den |}
           else
             d <- t_neg den ;;
             n <- t_mul num (-1) ;;
             Ok {| m_num := n; m_den := d |}) ;;
  reduction this.

Definition isFinite (this : Fraction) : bool := negb (m_den this =? 0).

Definition isInf (this : Fraction) : bool :=
  (m_den this =? 0) && negb (m_num this =? 0).

Definition isNan (this : Fraction) : bool :=
  (m_den this =? 0) && (m_num this =? 0).

(** The argument [Fraction<T> const& f] of a self-mutating operator is a
    reference: it designates either the receiver itself, as in [x /= x], or
    another object.  A read through it sees the receiver as it is at that
    moment. *)
Inductive reference : Set :=
| to_this
| to_other (f : Fraction).

Definition deref (this : Fraction) (f : reference) : Fraction :=
  match f with
  | to_this => this
  | to_other g => g
  end.

Definition set_num (this : Fraction) (n : Z) : Fraction :=
  {| m_num := n; m_den := m_den this |}.

Definition set_den (this : Fraction) (d : Z) : Fraction :=
  {| m_num := m_num this; m_den := d |}.

(** The self-mutating operators: the receiver after the call, of which the
    returned [Fraction<T>] is a copy. *)
Definition op_plus_assign (this : Fraction) (f : reference) : result Fraction :=
  l <- t_mul (m_num this) (m_den (deref this f)) ;;
  r <- t_mul (m_num (deref this f)) (m_den this) ;;
  n <- t_add l r ;;
  let this := set_num this n in
  d <- t_mul (m_den this) (m_den (deref this f)) ;;
  let this := set_den this d in
  reduction this.

Definition op_minus_assign (this : Fraction) (f : reference) : result Fraction :=
  l <- t_mul (m_num this) (m_den (deref this f)) ;;
  r <- t_mul (m_num (deref this f)) (m_den this) ;;
  n <- t_sub l r ;;
  let this := set_num this n in
  d <- t_mul (m_den this) (m_den (deref this f)) ;;
  let this := set_den this d in
  reduction this.

Definition op_mul_assign (this : Fraction) (f : reference) : result Fraction :=
  n <- t_mul (m_num this) (m_num (deref this f)) ;;
  let this := set_num this n in
  d <- t_mul (m_den this) (m_den (deref this f)) ;;
  let this := set_den this d in
  reduction this.

Definition op_div_assign (this : Fraction) (f : reference) : result Fraction :=
  n <- t_mul (m_num this) (m_den (deref this f)) ;;
  let this := set_num this n in
  d <- t_mul (m_den this) (m_num (deref this f)) ;;
  let this := set_den this d in
  reduction this.

(** The binary operators work on a local copy [f] of [f1], which [f2]
    cannot designate. *)
Definition op_plus (f1 f2 : Fraction) : result Fraction :=
  let f := f1 in op_plus_assign f (to_other f2).

Definition op_minus (f1 f2 : Fraction) : result Fraction :=
  let f := f1 in op_minus_assign f (to_other f2).

Definition op_mul (f1 f2 : Fraction) : result Fraction :=
  let f := f1 in op_mul_assign f (to_other f2).

Definition op_div (f1 f2 : Fraction) : result Fraction :=
  let f := f1 in op_div_assign f (to_other f2).

(** The comparisons. *)
Definition op_eq (f1 f2 : Fraction) : bool :=
  (m_num f1 =? m_num f2) && (m_den f1 =? m_den f2).

Definition op_gt (f1 f2 : Fraction) : result bool :=
  l <- t_mul (m_num f1) (m_den f2) ;;
  r <- t_mul (m_num f2) (m_den f1) ;;
  Ok (l >? r).

Definition op_ne (f1 f2 : Fraction) : bool := negb (op_eq f1 f2).

Definition op_ge (f1 f2 : Fraction) : result bool :=
  b <- op_gt f2 f1 ;; Ok (negb b).

Definition op_lt (f1 f2 : Fraction) : result bool := op_gt f2 f1.

Definition op_le (f1 f2 : Fraction) : result bool :=
  b <- op_gt f1 f2 ;; Ok (negb b).

(** [flux << x] for an integer [x]: its decimal digits, after a minus sign
    when it is negative. *)
Definition out_int (x : Z) : string := NilZero.string_of_int (Z.to_int x).

(** [operator<<]: the characters written to [flux]. *)
Definition op_out (f : Fraction) : string :=
  if isNan f then "NaN"%string
  else if isInf f then "Inf"%string
  else (out_int (m_num f) ++ "/" ++ out_int (m_den f))%string.

(** ** What the properties are stated with *)

(** The invariants of the data model: a non-negative denominator; a
    positive one has no common factor with the numerator, so that zero is
    the pair (0, 1); a null one marks an infinite or a not-a-number, which
    [reduction()] leaves as it is. *)
Record canonical (f : Fraction) : Prop := {
  den_nonneg : 0 <= m_den f;
  den_reduced : 0 < m_den f -> Z.gcd (Z.abs (m_num f)) (m_den f) = 1;
  zero_unique : 0 < m_den f -> m_num f = 0 -> m_den f = 1;
  den_null : m_den f = 0 ->
             isFinite f = false /\ isInf f || isNan f = true /\
             reduction f = Ok f
}.

Inductive operator : Set := Plus | Minus | Times | Divide.

Definition assign (o : operator) : Fraction -> reference -> result Fraction :=
  match o with
  | Plus => op_plus_assign
  | Minus => op_minus_assign
  | Times => op_mul_assign
  | Divide => op_div_assign
  end.

Definition binary (o : operator) : Fraction -> Fraction -> result Fraction :=
  match o with
  | Plus => op_plus
  | Minus => op_minus
  | Times => op_mul
  | Divide => op_div
  end.

(** The fractions that a public operation hands back: one of the two
    constructors, or an arithmetic operator, self-mutating or binary, on
    canonical operands. *)
Inductive produced : Fraction -> Prop :=
| by_Fraction1 (num : Z) :
    produced (Fraction1 num)
| by_Fraction2 (num den : Z) (f : Fraction) :
    Fraction2 num den = Ok f -> produced f
| by_assign (o : operator) (this : Fraction) (f : reference) (r : Fraction) :
    canonical this -> canonical (deref this f) ->
    assign o this f = Ok r -> produced r
| by_binary (o : operator) (f1 f2 r : Fraction) :
    canonical f1 -> canonical f2 ->
    binary o f1 f2 = Ok r -> produced r.

(** [loop_runs n a b r g]: entered with the locals [a], [b] and [r], the
    loop of [PGCD] leaves after [n] turns, none of which divides by zero,
    and [PGCD] returns [g]. *)
Inductive loop_runs : nat -> Z -> Z -> Z -> Z -> Prop :=
| loop_exit (a b : Z) :
    loop_runs 0 a b 0 b
| loop_turn (n : nat) (a b r r' g : Z) :
    r <> 0 -> t_rem b r = Ok r' -> loop_runs n b r r' g ->
    loop_runs (S n) a b r g.

(** [PGCD_runs n a b g]: the call [PGCD(a, b)] returns [g] after [n] turns
    of its loop. *)
Definition PGCD_runs (n : nat) (a b g : Z) : Prop :=
  exists r, t_rem a b = Ok r /\ loop_runs n a b r g.

(** [PGCD_terminates a b]: the call [PGCD(a, b)] has a positive second
    argument and returns after fewer than [b] turns of its loop. *)
Definition PGCD_terminates (a b : Z) : Prop :=
  0 < b /\
  exists n g, (n < Z.to_nat b)%nat /\ PGCD_runs n a b g /\ PGCD a b = Ok g.

Definition exactly_one (x y z : bool) : bool :=
  (x && negb y && negb z) || (negb x && y && negb z) || (negb x && negb y && z).

(** The value that [reduction()] computes from a numerator [n] and a
    denominator [d <> 0]. *)
Definition lowest_terms (n d : Z) : Fraction :=
  {| m_num := Z.sgn d * n / Z.gcd n d; m_den := Z.abs d / Z.gcd n d |}.

(** The numerator and the denominator that an operator computes before it
    calls [reduction()], as mathematical integers. *)
Definition unreduced (o : operator) (f1 f2 : Fraction) : Z * Z :=
  match o with
  | Plus => (m_num f1 * m_den f2 + m_num f2 * m_den f1, m_den f1 * m_den f2)
  | Minus => (m_num f1 * m_den f2 - m_num f2 * m_den f1, m_den f1 * m_den f2)
  | Times => (m_num f1 * m_num f2, m_den f1 * m_den f2)
  | Divide => (m_num f1 * m_den f2, m_den f1 * m_num f2)
  end.

(** The not-a-number. *)
Definition NaN : Fraction := {| m_num := 0; m_den := 0 |}.

(** The characters of a decimal integer: the ten digits and the minus
    sign. *)
Definition decimal_char (c : ascii) : bool :=
  match c with
  | "0" | "1" | "2" | "3" | "4" | "5" | "6" | "7" | "8" | "9" | "-" => true
  | _ => false
  end%char.

Fixpoint all_decimal (s : string) : bool :=
  match s with
  | EmptyString => true
  | String c s' => decimal_char c && all_decimal s'
  end.

(** The rational number that a finite fraction stands for. *)
Definition value (f : Fraction) : Q :=
  (inject_Z (m_num f) / inject_Z (m_den f))%Q.

(** The operation on rational numbers that an operator stands for, and the
    operator that undoes it. *)
Definition Q_op (o : operator) : Q -> Q -> Q :=
  match o with
  | Plus => Qplus
  | Minus => Qminus
  | Times => Qmult
  | Divide => Qdiv
  end.

Definition inverse (o : operator) : operator :=
  match o with
  | Plus => Minus
  | Minus => Plus
  | Times => Divide
  | Divide => Times
  end.

End Arithmetic.

(** ** The test driver [main.cpp] *)

(** [std::cout] is the text written so far; [std::endl] ends a line. *)
Definition endl : string := String "010"%char EmptyString.

(** [test01]: the text on [std::cout] after the call. *)
Definition test01 (cout : string) (f1 f2 : Fraction) : result string :=
  f <- Fraction2 (T := int32_t) 0 1 ;;
  let cout := (cout ++ op_out f1 ++ " + " ++ op_out f2 ++ " = ")%string in
  f <- op_plus (T := int32_t) f1 f2 ;;
  let cout := (cout ++ op_out f ++ endl)%string in
  let cout := (cout ++ op_out f1 ++ " - " ++ op_out f2 ++ " = ")%string in
  f <- op_minus (T := int32_t) f1 f2 ;;
  let cout := (cout ++ op_out f ++ endl)%string in
  let cout := (cout ++ op_out f1 ++ " * " ++ op_out f2 ++ " = ")%string in
  f <- op_mul (T := int32_t) f1 f2 ;;
  let cout := (cout ++ op_out f ++ endl)%string in
  let cout := (cout ++ op_out f1 ++ " / " ++ op_out f2 ++ " = ")%string in
  f <- op_div (T := int32_t) f1 f2 ;;
  let cout := (cout ++ op_out f ++ endl)%string in
  b <- op_lt (T := int32_t) f1 f2 ;;
  let cout :=
    if b then (cout ++ op_out f1 ++ " < " ++ op_out f2 ++ endl)%string
    else cout in
  b <- op_le (T := int32_t) f1 f2 ;;
  let cout :=
    if b then (cout ++ op_out f1 ++ " <= " ++ op_out f2 ++ endl)%string
    else cout in
  b <- op_gt (T := int32_t) f1 f2 ;;
  let cout :=
    if b then (cout ++ op_out f1 ++ " > " ++ op_out f2 ++ endl)%string
    else cout in
  b <- op_ge (T := int32_t) f1 f2 ;;
  let cout :=
    if b then (cout ++ op_out f1 ++ " >= " ++ op_out f2 ++ endl)%string
    else cout in
  let cout :=
    if op_eq f1 f2
    then (cout ++ op_out f1 ++ " == " ++ op_out f2 ++ endl)%string
    else cout in
  let cout :=
    if op_ne f1 f2
    then (cout ++ op_out f1 ++ " != " ++ op_out f2 ++ endl)%string
    else cout in
  Ok cout.

(** [main]: the text on [std::cout] and the value returned. *)
Definition main : result (string * Z) :=
  let cout := ("Test 1: Nominal case (positive values)" ++ endl)%string in
  f1 <- Fraction2 (T := int32_t) 100 150 ;;
  f2 <- Fraction2 (T := int32_t) 2 5 ;;
  cout <- test01 cout f1 f2 ;;
  let cout :=
    (cout ++ endl ++ "Test 2: Nominal case (positive and negative values)"
     ++ endl)%string in
  f3 <- Fraction2 (T := int32_t) 30 15 ;;
  f4 <- Fraction2 (T := int32_t) 242 (-10) ;;
  cout <- test01 cout f3 f4 ;;
  let cout :=
    (cout ++ endl ++ "Test 3: Nominal case (negative values)" ++ endl)%string in
  f5 <- Fraction2 (T := int32_t) (-3) 33 ;;
  f6 <- Fraction2 (T := int32_t) 7 (-21) ;;
  cout <- test01 cout f5 f6 ;;
  let cout :=
    (cout ++ endl ++ "Test 4: limit test (with 0 et 1)" ++ endl)%string in
  f7 <- Fraction2 (T := int32_t) 0 33 ;;
  let f8 := Fraction1 1 in
  cout <- test01 cout f7 f8 ;;
  let cout :=
    (cout ++ endl ++ "Test 5: test of '0' and 'Inf'" ++ endl)%string in
  f9 <- Fraction2 (T := int32_t) 1 0 ;;
  let f10 := Fraction0 in
  cout <- test01 cout f9 f10 ;;
  Ok (cout, 0).

(** * Properties *)

Section Properties.

Context {T : Integral}.

(** ** The range of [T] *)

Lemma T_min_max : T_min = - T_max - 1.
Proof. unfold T_min, T_max. lia. Qed.

Lemma T_max_int : 2147483647 <= T_max.
Proof.
  unfold T_max. pose proof bits_int as H. apply Z.leb_le in H.
  assert (2 ^ 31 <= 2 ^ (bits - 1)) by (apply Z.pow_le_mono_r; lia).
  change (2 ^ 31) with 2147483648 in *. lia.
Qed.

Lemma in_range_iff (z : Z) : in_range z = true <-> T_min <= z <= T_max.
Proof. unfold in_range. rewrite andb_true_iff, !Z.leb_le. tauto. Qed.

Lemma representable_Ok (z v : Z) :
  representable z = Ok v <-> v = z /\ T_min <= z <= T_max.
Proof.
  unfold representable. rewrite <- in_range_iff.
  destruct (in_range z); split; intros H; try discriminate.
  - injection H as <-. auto.
  - destruct H as [-> _]. reflexivity.
  - destruct H; discriminate.
Qed.

Lemma representable_in (z : Z) :
  T_min <= z <= T_max -> representable z = Ok z.
Proof. intros H. apply representable_Ok. auto. Qed.

(** ** The remainder and the loop of [PGCD] *)

Lemma t_rem_Ok (x y r : Z) :
  t_rem x y = Ok r -> y <> 0 /\ r = Z.rem x y.
Proof.
  unfold t_rem. destruct (Z.eqb_spec y 0); [discriminate|].
  destruct (in_range _); [|discriminate]. intros [= <-]. auto.
Qed.

Lemma t_rem_nonneg (x y : Z) :
  0 <= x <= T_max -> 0 < y -> t_rem x y = Ok (x mod y).
Proof.
  intros Hx Hy. unfold t_rem.
  destruct (Z.eqb_spec y 0); [lia|].
  rewrite Z.quot_div_nonneg, Z.rem_mod_nonneg by lia.
  assert (0 <= x / y <= x).
  { split; [apply Z.div_pos; lia|]. apply Z.div_le_upper_bound; nia. }
  pose proof T_min_max.
  replace (in_range (x / y)) with true; [reflexivity|].
  symmetry. apply in_range_iff. lia.
Qed.

Lemma gcd_turn (b r : Z) : 0 < r -> Z.gcd r (b mod r) = Z.gcd b r.
Proof.
  intros Hr. rewrite Z.gcd_comm, Z.gcd_mod by lia. apply Z.gcd_comm.
Qed.

(** Whatever the outcome of the remainders, a loop entered with [0 <= r]
    and [0 < b] can only return the greatest common divisor. *)
Lemma PGCD_loop_Ok (a b r g : Z) :
  0 <= r -> 0 < b -> PGCD_loop a b r = Ok g -> g = Z.gcd b r.
Proof.
  funelim (PGCD_loop a b r); intros Hr Hb Hg.
  - subst r. injection Hg as <-. rewrite Z.gcd_0_r. lia.
  - destruct (t_rem_Ok _ _ _ E) as [_ Hr'].
    rewrite Z.rem_mod_nonneg in Hr' by lia.
    pose proof (Z.mod_pos_bound b r ltac:(lia)).
    rewrite (H g) by (assumption || lia).
    rewrite Hr'. apply gcd_turn. lia.
  - discriminate.
Qed.

(** Entered with [0 <= r < b], the loop leaves after at most [r] turns. *)
Lemma PGCD_loop_runs (a b r : Z) :
  0 <= r < b -> b <= T_max ->
  PGCD_loop a b r = Ok (Z.gcd b r) /\
  exists n, (n <= Z.to_nat r)%nat /\ loop_runs n a b r (Z.gcd b r).
Proof.
  funelim (PGCD_loop a b r); intros Hr Hb.
  - subst r. rewrite Z.gcd_0_r, Z.abs_eq by lia.
    split; [reflexivity|]. exists 0%nat. split; [lia|]. constructor.
  - pose proof E as E'. rewrite t_rem_nonneg in E' by lia.
    injection E' as Hr'.
    pose proof (Z.mod_pos_bound b r ltac:(lia)) as Hm. rewrite Hr' in Hm.
    pose proof (gcd_turn b r ltac:(lia)) as Hgcd. rewrite Hr' in Hgcd.
    destruct H as [-> [k [Hk Hrun]]]; [lia..|].
    rewrite Hgcd in *. split; [reflexivity|].
    exists (S k). split; [lia|].
    apply loop_turn with (r' := r'); assumption.
  - match goal with E : t_rem _ _ = UB _ |- _ => pose proof E as E' end.
    rewrite t_rem_nonneg in E' by lia. discriminate E'.
Qed.

(** [PGCD] on the arguments that [reduction()] passes. *)
Lemma PGCD_Ok (a b g : Z) :
  0 <= a -> 0 < b -> PGCD a b = Ok g -> g = Z.gcd a b.
Proof.
  intros Ha Hb. unfold PGCD.
  destruct (t_rem a b) as [r|] eqn:E; [|discriminate]. simpl.
  apply t_rem_Ok in E as [_ ->]. rewrite Z.rem_mod_nonneg by lia.
  pose proof (Z.mod_pos_bound a b Hb).
  intros ->%PGCD_loop_Ok; [|lia..].
  apply gcd_turn. lia.
Qed.

Lemma PGCD_nonneg (a b : Z) :
  0 <= a <= T_max -> 0 < b <= T_max ->
  PGCD a b = Ok (Z.gcd a b) /\
  exists n, (n < Z.to_nat b)%nat /\ PGCD_runs n a b (Z.gcd a b).
Proof.
  intros Ha Hb. unfold PGCD, PGCD_runs.
  rewrite t_rem_nonneg by lia. simpl.
  pose proof (Z.mod_pos_bound a b ltac:(lia)).
  destruct (PGCD_loop_runs a b (a mod b)) as [-> [n [Hn Hrun]]]; [lia..|].
  assert (Z.gcd b (a mod b) = Z.gcd a b) as Hgcd by (apply gcd_turn; lia).
  rewrite Hgcd in *. split; [reflexivity|].
  exists n. split; [lia|]. exists (a mod b). split; [reflexivity|assumption].
Qed.

(** ** Inversion of the monad *)

Lemma bind_Ok {A B : Type} (m : result A) (k : A -> result B) (r : B) :
  bind m k = Ok r <-> exists x, m = Ok x /\ k x = Ok r.
Proof.
  destruct m as [x|why]; simpl; split.
  - intros H. exists x. auto.
  - intros [y [[= <-] H]]. exact H.
  - discriminate.
  - intros [y [H _]]. discriminate.
Qed.

Ltac invert_result :=
  repeat match goal with
  | H : bind _ _ = Ok _ |- _ =>
      let x := fresh "v" in
      let E := fresh "E" in
      apply bind_Ok in H as [x [E H]]
  | H : t_mul _ _ = Ok _ |- _ => apply representable_Ok in H as [? ?]
  | H : t_add _ _ = Ok _ |- _ => apply representable_Ok in H as [? ?]
  | H : t_sub _ _ = Ok _ |- _ => apply representable_Ok in H as [? ?]
  | H : t_neg _ = Ok _ |- _ => apply representable_Ok in H as [? ?]
  | H : Ok _ = Ok _ |- _ => injection H as H
  end.

(** ** The value in lowest terms *)

Lemma quot_exact (x g : Z) : g <> 0 -> (g | x) -> Z.quot x g = x / g.
Proof.
  intros Hg [k ->]. rewrite Z.quot_mul, Z.div_mul by assumption. reflexivity.
Qed.

Lemma gcd_pos (n d : Z) : d <> 0 -> 0 < Z.gcd n d.
Proof.
  intros Hd. pose proof (Z.gcd_nonneg n d).
  destruct (Z.eq_dec (Z.gcd n d) 0) as [H0|]; [|lia].
  apply Z.gcd_eq_0_r in H0. contradiction.
Qed.

Lemma gcd_sign (n d : Z) :
  d <> 0 -> Z.gcd (Z.sgn d * n) (Z.abs d) = Z.gcd n d.
Proof.
  intros Hd. rewrite Z.gcd_abs_r.
  destruct (Z.sgn_spec d) as [[_ ->]|[[? _]|[_ ->]]]; [|lia|].
  - f_equal. lia.
  - replace (-1 * n) with (- n) by lia. apply Z.gcd_opp_l.
Qed.

Lemma lowest_terms_spec (n d : Z) :
  d <> 0 ->
  0 < m_den (lowest_terms n d) /\
  Z.gcd (Z.abs (m_num (lowest_terms n d))) (m_den (lowest_terms n d)) = 1 /\
  m_num (lowest_terms n d) * d = n * m_den (lowest_terms n d).
Proof.
  intros Hd. unfold lowest_terms. simpl.
  pose proof (gcd_pos n d Hd) as Hg.
  pose proof (gcd_sign n d Hd) as Hsame.
  destruct (Z.gcd_divide_l n d) as [p Hp].
  destruct (Z.gcd_divide_r n d) as [q Hq].
  set (g := Z.gcd n d) in *.
  assert (Z.abs d / g = Z.abs q) as Hden.
  { rewrite Hq, Z.abs_mul, (Z.abs_eq g), Z.div_mul by lia. reflexivity. }
  assert (Z.sgn d * n / g = Z.sgn d * p) as Hnum.
  { rewrite Hp, Z.mul_assoc, Z.div_mul by lia. reflexivity. }
  split; [|split].
  - rewrite Hden. nia.
  - rewrite Z.gcd_abs_l.
    apply Z.gcd_div_gcd; [lia|]. symmetry. exact Hsame.
  - rewrite Hden, Hnum.
    destruct (Z.sgn_spec d) as [[? ->]|[[? _]|[? ->]]]; nia.
Qed.

(** ** [reduction()] *)

Lemma reduction_null (this : Fraction) :
  m_den this = 0 -> reduction this = Ok this.
Proof. intros H. unfold reduction. rewrite H. reflexivity. Qed.

(** The receiver that enters the gcd computation: a positive denominator,
    the same value. *)
Lemma sign_fix_Ok (this this1 : Fraction) :
  m_den this <> 0 -> sign_fix this = Ok this1 ->
  0 < m_den this1 /\
  m_num this1 = Z.sgn (m_den this) * m_num this /\
  m_den this1 = Z.abs (m_den this).
Proof.
  unfold sign_fix. intros Hd H.
  destruct (Z.ltb_spec (m_den this) 0); invert_result; subst; simpl; lia.
Qed.

Lemma sign_fix_defined (this : Fraction) :
  T_min < m_num this <= T_max -> T_min < m_den this <= T_max ->
  exists this1, sign_fix this = Ok this1.
Proof.
  intros Hn Hd. unfold sign_fix, t_mul. pose proof T_min_max.
  destruct (Z.ltb_spec (m_den this) 0); [|eauto].
  rewrite !representable_in by lia. simpl. eauto.
Qed.

Lemma t_div_Ok (x y q : Z) :
  t_div x y = Ok q -> y <> 0 /\ q = Z.quot x y.
Proof.
  unfold t_div. destruct (Z.eqb_spec y 0); [discriminate|].
  intros [-> _]%representable_Ok. auto.
Qed.

Lemma t_div_exact (x g : Z) :
  T_min < x <= T_max -> 0 < g -> (g | x) -> t_div x g = Ok (x / g).
Proof.
  intros Hx Hg Hdiv. unfold t_div.
  destruct (Z.eqb_spec g 0); [lia|].
  rewrite quot_exact by (assumption || lia).
  apply representable_in. destruct Hdiv as [k ->].
  rewrite Z.div_mul by lia. pose proof T_min_max. nia.
Qed.

(** The gcd that [reduction()] divides by, once the denominator is
    positive. *)
Lemma divisor_Ok (this : Fraction) (g : Z) :
  0 < m_den this ->
  (if m_num this >=? 0 then PGCD (m_num this) (m_den this)
   else a <- t_mul (-1) (m_num this) ;; PGCD a (m_den this)) = Ok g ->
  g = Z.gcd (m_num this) (m_den this).
Proof.
  intros Hd. rewrite Z.geb_leb.
  destruct (Z.leb_spec 0 (m_num this)) as [Hn|Hn]; intros Hg.
  - apply PGCD_Ok in Hg; [assumption|lia..].
  - invert_result. subst. apply PGCD_Ok in Hg; [|lia..].
    rewrite Hg. replace (-1 * m_num this) with (- m_num this) by lia.
    apply Z.gcd_opp_l.
Qed.

Lemma divisor_defined (this : Fraction) :
  T_min < m_num this <= T_max -> 0 < m_den this <= T_max ->
  (if m_num this >=? 0 then PGCD (m_num this) (m_den this)
   else a <- t_mul (-1) (m_num this) ;; PGCD a (m_den this))
  = Ok (Z.gcd (m_num this) (m_den this)).
Proof.
  intros Hn Hd. rewrite Z.geb_leb. pose proof T_min_max.
  destruct (Z.leb_spec 0 (m_num this)).
  - apply PGCD_nonneg; lia.
  - unfold t_mul. rewrite representable_in by lia. simpl.
    replace (-1 * m_num this) with (- m_num this) by lia.
    rewrite <- (Z.gcd_opp_l (m_num this)). apply PGCD_nonneg; lia.
Qed.

(** Whenever [reduction()] returns on a non-null denominator, the receiver
    holds the value in lowest terms. *)
Lemma reduction_Ok (this r : Fraction) :
  m_den this <> 0 -> reduction this = Ok r ->
  r = lowest_terms (m_num this) (m_den this).
Proof.
  intros Hd. unfold reduction.
  destruct (Z.eqb_spec (m_den this) 0); [contradiction|]. simpl.
  intros H. apply bind_Ok in H as [this1 [Hfix H]].
  apply sign_fix_Ok in Hfix as [Hpos [Hn1 Hd1]]; [|assumption].
  apply bind_Ok in H as [g [Hg H]].
  apply divisor_Ok in Hg; [|assumption].
  apply bind_Ok in H as [n' [[_ ->]%t_div_Ok H]].
  apply bind_Ok in H as [d' [[_ ->]%t_div_Ok H]].
  injection H as <-. unfold lowest_terms.
  rewrite Hn1, Hd1 in *. rewrite gcd_sign in Hg by assumption. subst g.
  pose proof (gcd_pos (m_num this) (m_den this) Hd).
  rewrite !quot_exact; try lia; try reflexivity.
  - apply Z.divide_abs_r, Z.gcd_divide_r.
  - apply Z.divide_mul_r, Z.gcd_divide_l.
Qed.

(** [reduction()] returns on every receiver whose two members can be
    negated in [T]. *)
Lemma reduction_defined (this : Fraction) :
  T_min < m_num this <= T_max -> T_min < m_den this <= T_max ->
  m_den this <> 0 ->
  reduction this = Ok (lowest_terms (m_num this) (m_den this)).
Proof.
  intros Hn Hd Hd0.
  destruct (sign_fix_defined this Hn Hd) as [this1 Hfix].
  pose proof (sign_fix_Ok _ _ Hd0 Hfix) as [Hpos [Hn1 Hd1]].
  pose proof T_min_max.
  assert (T_min < m_num this1 <= T_max)
    by (destruct (Z.sgn_spec (m_den this)) as [[? E]|[[? E]|[? E]]];
        rewrite Hn1, E; lia).
  assert (0 < m_den this1 <= T_max) by lia.
  pose proof (gcd_pos (m_num this1) (m_den this1) ltac:(lia)) as Hg.
  unfold reduction.
  destruct (Z.eqb_spec (m_den this) 0); [contradiction|]. simpl.
  rewrite Hfix. simpl. rewrite divisor_defined by assumption. simpl.
  rewrite t_div_exact by (assumption || apply Z.gcd_divide_l). simpl.
  rewrite t_div_exact by (lia || apply Z.gcd_divide_r). simpl.
  unfold lowest_terms. rewrite Hn1, Hd1, gcd_sign by assumption.
  reflexivity.
Qed.

(** ** Canonical form *)

Lemma lowest_terms_canonical (n d : Z) : d <> 0 -> canonical (lowest_terms n d).
Proof.
  intros Hd. destruct (lowest_terms_spec n d Hd) as [Hpos [Hgcd _]].
  constructor; [lia|auto| |lia].
  intros _ H0. rewrite H0 in Hgcd. cbn [Z.abs] in Hgcd.
  rewrite Z.gcd_0_l in Hgcd. lia.
Qed.

Lemma null_canonical (f : Fraction) : m_den f = 0 -> canonical f.
Proof.
  intros H0. constructor; [lia|lia|lia|]. intros _.
  unfold isFinite, isInf, isNan. rewrite H0. simpl.
  rewrite orb_comm, orb_negb_r, reduction_null by assumption. auto.
Qed.

Lemma reduction_canonical (this r : Fraction) :
  reduction this = Ok r -> canonical r.
Proof.
  intros H. destruct (Z.eq_dec (m_den this) 0) as [H0|H0].
  - rewrite reduction_null in H by assumption. injection H as <-.
    apply null_canonical. assumption.
  - apply reduction_Ok in H; [|assumption]. subst r.
    apply lowest_terms_canonical. assumption.
Qed.

Lemma Fraction1_canonical (num : Z) : canonical (Fraction1 num).
Proof.
  constructor; simpl; try lia.
  intros _. apply Z.gcd_1_r.
Qed.

(** Every operator ends in [reduction()], called on a receiver whose two
    members are values of [T]. *)
Lemma assign_reduces (o : operator) (this : Fraction) (f : reference)
    (r : Fraction) :
  assign o this f = Ok r ->
  exists raw,
    T_min <= m_num raw <= T_max /\ T_min <= m_den raw <= T_max /\
    reduction raw = Ok r.
Proof.
  destruct o; simpl;
    unfold op_plus_assign, op_minus_assign, op_mul_assign, op_div_assign;
    intros H; invert_result; subst;
    eexists; (split; [|split; [|eassumption]]); simpl in *; assumption.
Qed.

(** C1. Every fraction that a public operation hands back, from either
    constructor or from [+], [-], [*], [/] in binary or self-mutating form
    on canonical operands, is in canonical form: its denominator is not
    negative; when it is positive, it has no common factor with the
    numerator, and zero is the pair (0, 1); when it is null, the pair is an
    infinite or a not-a-number, which [reduction()] leaves untouched. *)
Theorem produced_canonical (f : Fraction) : produced f -> canonical f.
Proof.
  intros H. inversion H as [num|num den f' Hc|o this g r _ _ Ho|o f1 f2 r _ _ Ho];
    subst.
  - apply Fraction1_canonical.
  - unfold Fraction2 in Hc. apply bind_Ok in Hc as [raw [_ Hc]].
    eapply reduction_canonical; eassumption.
  - apply assign_reduces in Ho as [raw [_ [_ Hr]]].
    eapply reduction_canonical; eassumption.
  - assert (assign o f1 (to_other f2) = Ok f) as Ho' by (destruct o; exact Ho).
    apply assign_reduces in Ho' as [raw [_ [_ Hr]]].
    eapply reduction_canonical; eassumption.
Qed.

(** ** The constructor [Fraction<T> (T num, T den)] *)

Lemma lowest_terms_opp (n d : Z) : lowest_terms (- n) (- d) = lowest_terms n d.
Proof.
  unfold lowest_terms.
  rewrite Z.gcd_opp_l, Z.gcd_opp_r, Z.abs_opp, Z.sgn_opp.
  f_equal. f_equal. lia.
Qed.

Lemma lowest_terms_fixed (n d : Z) :
  0 < d -> Z.gcd (Z.abs n) d = 1 ->
  lowest_terms n d = {| m_num := n; m_den := d |}.
Proof.
  intros Hd Hg. rewrite Z.gcd_abs_l in Hg. unfold lowest_terms.
  rewrite Hg, !Z.div_1_r, Z.sgn_pos, Z.abs_eq by lia.
  f_equal. lia.
Qed.

(** The receiver that the constructor passes to [reduction()]. *)
Lemma Fraction2_raw (num den : Z) :
  T_min < num <= T_max -> T_min < den <= T_max ->
  Fraction2 num den =
  reduction (if den >? 0 then {| m_num := num; m_den := den |}
             else {| m_num := - num; m_den := - den |}).
Proof.
  intros Hn Hd. unfold Fraction2, t_neg, t_mul. pose proof T_min_max.
  destruct (den >? 0); [reflexivity|].
  rewrite !representable_in by lia. simpl.
  replace (num * -1) with (- num) by lia. reflexivity.
Qed.

Lemma Fraction2_defined (num den : Z) :
  T_min < num <= T_max -> T_min < den <= T_max -> den <> 0 ->
  Fraction2 num den = Ok (lowest_terms num den).
Proof.
  intros Hn Hd Hd0. rewrite Fraction2_raw by assumption.
  pose proof T_min_max.
  rewrite Z.gtb_ltb. destruct (Z.ltb_spec 0 den).
  - apply reduction_defined; simpl; assumption.
  - rewrite reduction_defined; simpl; [|lia..].
    rewrite lowest_terms_opp. reflexivity.
Qed.

Lemma Fraction2_null (num : Z) :
  T_min < num <= T_max ->
  Fraction2 num 0 = Ok {| m_num := - num; m_den := 0 |}.
Proof.
  intros Hn. pose proof T_min_max. pose proof T_max_int.
  rewrite Fraction2_raw by lia. reflexivity.
Qed.

Lemma Q_cross (a b c d : Z) :
  b <> 0 -> d <> 0 -> a * d = c * b ->
  (inject_Z a / inject_Z b == inject_Z c / inject_Z d)%Q.
Proof.
  intros Hb Hd H.
  assert (~ (inject_Z b == 0)%Q) as Hb'
    by (unfold Qeq; simpl; lia).
  assert (~ (inject_Z d == 0)%Q) as Hd'
    by (unfold Qeq; simpl; lia).
  assert (inject_Z a * inject_Z d == inject_Z c * inject_Z b)%Q as H'
    by (rewrite <- !inject_Z_mult, H; reflexivity).
  apply (Qmult_inj_r _ _ (inject_Z b * inject_Z d)%Q).
  - intros E. apply Qmult_integral in E. tauto.
  - transitivity (inject_Z a * inject_Z d)%Q; [field; assumption|].
    rewrite H'. field. assumption.
Qed.

Lemma Fraction2_Ok (num den : Z) (f : Fraction) :
  den <> 0 -> Fraction2 num den = Ok f -> f = lowest_terms num den.
Proof.
  intros Hd0. unfold Fraction2. rewrite Z.gtb_ltb.
  destruct (Z.ltb_spec 0 den) as [Hpos|Hneg]; intros Hf; invert_result; subst.
  - apply reduction_Ok in Hf; simpl in *; assumption.
  - apply reduction_Ok in Hf; simpl in *; [|lia].
    replace (num * -1) with (- num) in Hf by lia.
    rewrite lowest_terms_opp in Hf. assumption.
Qed.

(** C2. For every pair (num, den) with [den <> 0], the pair (num', den')
    that the two-argument constructor returns has gcd(|num'|, den') = 1 and
    den' > 0, and num'/den' is the rational number num/den.  The constructor
    does return on all values of [T] but its minimum, whose negation is an
    overflow. *)
Theorem Fraction2_canonical (num den : Z) :
  den <> 0 ->
  (T_min < num <= T_max -> T_min < den <= T_max ->
   exists f, Fraction2 num den = Ok f) /\
  (forall f,
     Fraction2 num den = Ok f ->
     Z.gcd (Z.abs (m_num f)) (m_den f) = 1 /\
     0 < m_den f /\
     (inject_Z (m_num f) / inject_Z (m_den f)
      == inject_Z num / inject_Z den)%Q).
Proof.
  intros Hd0. split.
  - intros Hn Hd. exists (lowest_terms num den).
    apply Fraction2_defined; assumption.
  - intros f ->%Fraction2_Ok; [|assumption].
    destruct (lowest_terms_spec num den Hd0) as [Hpos [Hgcd Hval]].
    split; [assumption|]. split; [assumption|].
    apply Q_cross; [lia|assumption|assumption].
Qed.

(** A canonical pair with a positive denominator, and the not-a-number,
    are built as they are, as long as [T] can negate the numerator. *)
Lemma Fraction2_fixed_point (n d : Z) :
  canonical {| m_num := n; m_den := d |} ->
  T_min < n <= T_max -> d <= T_max -> 0 < d \/ n = 0 ->
  Fraction2 n d = Ok {| m_num := n; m_den := d |}.
Proof.
  intros [Hnn Hred _ _] Hn Hd Hfin. simpl in *. pose proof T_min_max.
  destruct (Z.eq_dec d 0) as [->|Hd0].
  - destruct Hfin as [Hpos|Hzero]; [lia|]. subst n.
    apply Fraction2_null. assumption.
  - rewrite Fraction2_defined by lia.
    rewrite lowest_terms_fixed by (lia || apply Hred; lia). reflexivity.
Qed.

(** C5. The constructor does not keep the numerator over a null
    denominator: its test [den > 0] sends [den == 0] to the branch that
    negates both arguments, and [Fraction(1, 0)] stores the numerator -1.
    The other ways to the same fraction keep it: [reduction()], whose sign
    fix tests [m_den < 0], leaves the pair (1, 0) alone, and
    [Fraction(1) / Fraction(0)] is the pair (1, 0), which is not [==] to
    [Fraction(1, 0)]. *)
Theorem Fraction2_null_den_negates :
  Fraction2 1 0 = Ok {| m_num := -1; m_den := 0 |} /\
  m_num {| m_num := -1; m_den := 0 |} <> 1 /\
  reduction {| m_num := 1; m_den := 0 |} = Ok {| m_num := 1; m_den := 0 |} /\
  op_div (Fraction1 1) Fraction0 = Ok {| m_num := 1; m_den := 0 |} /\
  op_eq {| m_num := -1; m_den := 0 |} {| m_num := 1; m_den := 0 |} = false.
Proof.
  pose proof T_min_max. pose proof T_max_int.
  split; [apply Fraction2_null; lia|].
  split; [simpl; lia|]. split; [reflexivity|]. split; [|reflexivity].
  unfold op_div, op_div_assign, t_mul. simpl.
  rewrite !representable_in by lia. reflexivity.
Qed.

(** C6. Construction is not idempotent on the infinite pairs: (1, 0) is
    canonical, and [Fraction(1, 0)] is the other pair (-1, 0), from which a
    second construction comes back to (1, 0).  The cause is that of C5: the
    branch taken for [den == 0] negates the numerator. *)
Theorem Fraction2_infinite_not_fixed :
  canonical {| m_num := 1; m_den := 0 |} /\
  Fraction2 1 0 = Ok {| m_num := -1; m_den := 0 |} /\
  Fraction2 1 0 <> Ok {| m_num := 1; m_den := 0 |} /\
  Fraction2 (-1) 0 = Ok {| m_num := 1; m_den := 0 |}.
Proof.
  pose proof T_min_max. pose proof T_max_int.
  split; [apply null_canonical; reflexivity|].
  rewrite !Fraction2_null by lia. simpl.
  split; [reflexivity|]. split; [discriminate|reflexivity].
Qed.

(** ** Null denominators *)

Lemma representable_0 : representable 0 = Ok 0.
Proof.
  apply representable_in. pose proof T_min_max. pose proof T_max_int. lia.
Qed.

Lemma t_mul_0_r (x : Z) : t_mul x 0 = Ok 0.
Proof. unfold t_mul. rewrite Z.mul_0_r. apply representable_0. Qed.

Lemma t_mul_0_l (x : Z) : t_mul 0 x = Ok 0.
Proof. unfold t_mul. rewrite Z.mul_0_l. apply representable_0. Qed.

Lemma isNan_NaN (f : Fraction) : isNan f = true <-> f = NaN.
Proof.
  unfold isNan. rewrite andb_true_iff, !Z.eqb_eq. destruct f as [n d].
  simpl. split.
  - intros [-> ->]. reflexivity.
  - intros [= -> ->]. auto.
Qed.

Lemma isFinite_false (f : Fraction) : isFinite f = false <-> m_den f = 0.
Proof. unfold isFinite. rewrite negb_false_iff. apply Z.eqb_eq. Qed.

(** C8. Whenever the two operands both have the denominator 0, whichever of
    Inf, -Inf and NaN they are, [f1 > f2] is false: the two products that
    are compared are both 0. *)
Theorem op_gt_non_finite (f1 f2 : Fraction) :
  isFinite f1 = false -> isFinite f2 = false -> op_gt f1 f2 = Ok false.
Proof.
  intros H1%isFinite_false H2%isFinite_false. unfold op_gt.
  rewrite H1, H2, !t_mul_0_r. reflexivity.
Qed.

Lemma assign_NaN_r (o : operator) (x : Fraction) :
  assign o x (to_other NaN) = Ok NaN.
Proof.
  destruct o; simpl;
    unfold op_plus_assign, op_minus_assign, op_mul_assign, op_div_assign;
    simpl; rewrite ?t_mul_0_r, ?t_mul_0_l; simpl;
    unfold t_add, t_sub; simpl; rewrite ?representable_0; simpl;
    rewrite ?t_mul_0_r, ?t_mul_0_l; reflexivity.
Qed.

Lemma assign_NaN_l (o : operator) (f : reference) :
  assign o NaN f = Ok NaN.
Proof.
  destruct o, f as [|x]; simpl;
    unfold op_plus_assign, op_minus_assign, op_mul_assign, op_div_assign;
    simpl; rewrite ?t_mul_0_r, ?t_mul_0_l; simpl;
    unfold t_add, t_sub; simpl; rewrite ?representable_0; simpl;
    rewrite ?t_mul_0_r, ?t_mul_0_l; reflexivity.
Qed.

Lemma binary_assign (o : operator) (f1 f2 : Fraction) :
  binary o f1 f2 = assign o f1 (to_other f2).
Proof. destruct o; reflexivity. Qed.

(** C10. The not-a-number absorbs: for each of [+], [-], [*], [/] and every
    fraction [x], as soon as one operand is a NaN the result is the NaN
    (0, 0); this holds with the NaN on either side, for the binary operator
    and for the self-mutating one, also when the NaN is combined with
    itself through a reference to the receiver. *)
Theorem NaN_absorbing (o : operator) (x n : Fraction) :
  isNan n = true ->
  binary o x n = Ok NaN /\ binary o n x = Ok NaN /\
  assign o x (to_other n) = Ok NaN /\ assign o n (to_other x) = Ok NaN /\
  assign o n to_this = Ok NaN.
Proof.
  intros ->%isNan_NaN. rewrite !binary_assign.
  repeat split; apply assign_NaN_r || apply assign_NaN_l.
Qed.

(** C3, as the code has it. For all fractions [a] and [b], [b] canonical
    with the numerator 0, [a / b] returns, and no error is raised, a result
    with the denominator 0.  It is infinite when the numerator of [a] is not
    zero and [b] is the finite zero 0/1; it is a not-a-number when the
    numerator of [a] is zero, and also when [b] is itself the NaN (0, 0),
    whatever [a] is.  In particular [Fraction(1,3) / Fraction(0,5)] is
    infinite. *)
Theorem op_div_by_zero (a b : Fraction) :
  T_min <= m_num a <= T_max -> canonical b -> m_num b = 0 ->
  (exists r,
     op_div a b = Ok r /\ m_den r = 0 /\
     (m_num a <> 0 -> m_den b <> 0 -> isInf r = true) /\
     (m_num a = 0 \/ m_den b = 0 -> isNan r = true)) /\
  (x <- Fraction2 1 3 ;; y <- Fraction2 0 5 ;; r <- op_div x y ;; Ok (isInf r))
  = Ok true.
Proof.
  intros Ha [Hnn _ Hz _] Hb.
  pose proof T_min_max. pose proof T_max_int. split.
  - assert (m_den b = 0 \/ m_den b = 1) as Hd
      by (destruct (Z.eq_dec (m_den b) 0); [auto|right; apply Hz; lia]).
    exists {| m_num := m_num a * m_den b; m_den := 0 |}.
    unfold op_div, op_div_assign, t_mul. simpl.
    rewrite Hb, Z.mul_0_r, representable_0.
    rewrite representable_in by (destruct Hd as [-> | ->]; lia).
    simpl. split; [reflexivity|]. split; [reflexivity|].
    unfold isInf, isNan. simpl. split.
    + intros Hn Hd0. apply negb_true_iff, Z.eqb_neq. nia.
    + intros Hnan. apply Z.eqb_eq. nia.
  - rewrite !Fraction2_defined by lia. simpl.
    unfold op_div, op_div_assign, t_mul. simpl.
    rewrite representable_0, representable_in by lia. reflexivity.
Qed.

(** ** The value of the four operators *)

Lemma reduction_value (n d : Z) :
  T_min < n <= T_max -> T_min < d <= T_max ->
  reduction {| m_num := n; m_den := d |}
  = Ok (if d =? 0 then {| m_num := n; m_den := 0 |} else lowest_terms n d).
Proof.
  intros Hn Hd. destruct (Z.eqb_spec d 0) as [->|Hd0].
  - apply reduction_null. reflexivity.
  - apply reduction_defined; assumption.
Qed.

(** As long as no product, sum or difference leaves [T] and neither member
    of the unreduced pair is the minimum of [T], a binary operator returns
    the unreduced pair in lowest terms, or as it is when its denominator is
    null. *)
Lemma binary_value (o : operator) (f1 f2 : Fraction) :
  T_min <= m_num f1 * m_den f2 <= T_max ->
  T_min <= m_num f2 * m_den f1 <= T_max \/ o = Times ->
  T_min < fst (unreduced o f1 f2) <= T_max ->
  T_min < snd (unreduced o f1 f2) <= T_max ->
  binary o f1 f2
  = Ok (if snd (unreduced o f1 f2) =? 0
        then {| m_num := fst (unreduced o f1 f2); m_den := 0 |}
        else lowest_terms (fst (unreduced o f1 f2)) (snd (unreduced o f1 f2))).
Proof.
  intros H1 H2 Hn Hd.
  destruct o; simpl in *;
    unfold op_plus, op_minus, op_mul, op_div,
      op_plus_assign, op_minus_assign, op_mul_assign, op_div_assign,
      t_mul, t_add, t_sub; simpl;
    try (destruct H2 as [H2|H2]; [|discriminate H2]);
    rewrite ?representable_in by lia; simpl;
    rewrite ?representable_in by lia; simpl;
    apply reduction_value; assumption.
Qed.

(** ** The comparisons *)

(** A rational number has one canonical pair. *)
Lemma canonical_unique (f1 f2 : Fraction) :
  canonical f1 -> canonical f2 -> 0 < m_den f1 -> 0 < m_den f2 ->
  m_num f1 * m_den f2 = m_num f2 * m_den f1 -> f1 = f2.
Proof.
  intros [_ Hr1 _ _] [_ Hr2 _ _] Hd1 Hd2 Hx.
  destruct f1 as [n1 d1], f2 as [n2 d2]. simpl in *.
  specialize (Hr1 Hd1). specialize (Hr2 Hd2).
  rewrite Z.gcd_abs_l, Z.gcd_comm in Hr1, Hr2.
  assert ((d1 | d2)) as H12.
  { apply Z.gauss with (m := n1); [|assumption].
    exists n2. lia. }
  assert ((d2 | d1)) as H21.
  { apply Z.gauss with (m := n2); [|assumption].
    exists n1. lia. }
  assert (d1 = d2) by (apply Z.divide_antisym_nonneg; (assumption || lia)).
  subst d2. f_equal. nia.
Qed.

Lemma op_gt_Ok (f1 f2 : Fraction) (greater : bool) :
  op_gt f1 f2 = Ok greater <->
  T_min <= m_num f1 * m_den f2 <= T_max /\
  T_min <= m_num f2 * m_den f1 <= T_max /\
  greater = (m_num f1 * m_den f2 >? m_num f2 * m_den f1).
Proof.
  unfold op_gt. split.
  - intros H. invert_result. subst. auto.
  - intros [H1 [H2 ->]]. unfold t_mul.
    rewrite !representable_in by assumption. reflexivity.
Qed.

(** On finite canonical fractions the cross products decide the order and
    the equality of the pairs. *)
Lemma cross_products_trichotomy (f1 f2 : Fraction) :
  canonical f1 -> canonical f2 -> 0 < m_den f1 -> 0 < m_den f2 ->
  exactly_one (m_num f2 * m_den f1 >? m_num f1 * m_den f2)
              (op_eq f1 f2)
              (m_num f1 * m_den f2 >? m_num f2 * m_den f1) = true.
Proof.
  intros C1 C2 D1 D2. unfold exactly_one, op_eq. rewrite !Z.gtb_ltb.
  destruct (Z.eq_dec (m_num f1 * m_den f2) (m_num f2 * m_den f1)) as [Heq|Hne].
  - apply canonical_unique in Heq; [|assumption..]. subst f2.
    rewrite !Z.eqb_refl, Z.ltb_irrefl. reflexivity.
  - assert (m_num f1 <> m_num f2 \/ m_den f1 <> m_den f2) as Hpair
      by (destruct (Z.eq_dec (m_num f1) (m_num f2)) as [En|];
          [right; intros Ed; rewrite En, Ed in Hne; lia | left; assumption]).
    replace ((m_num f1 =? m_num f2) && (m_den f1 =? m_den f2)) with false
      by (symmetry; apply andb_false_iff; rewrite !Z.eqb_neq; exact Hpair).
    destruct (Z.ltb_spec (m_num f1 * m_den f2) (m_num f2 * m_den f1));
      destruct (Z.ltb_spec (m_num f2 * m_den f1) (m_num f1 * m_den f2));
      (reflexivity || lia).
Qed.

(** C7. For all finite canonical fractions [f1] and [f2], exactly one of
    [f1 < f2], [f1 == f2] and [f1 > f2] holds, and [f1 <= f2] is the
    negation of [f1 > f2].  The comparisons do return as soon as the two
    cross products are values of [T]. *)
Theorem ordering_trichotomy (f1 f2 : Fraction) :
  canonical f1 -> canonical f2 ->
  isFinite f1 = true -> isFinite f2 = true ->
  (T_min <= m_num f1 * m_den f2 <= T_max ->
   T_min <= m_num f2 * m_den f1 <= T_max ->
   exists greater, op_gt f1 f2 = Ok greater) /\
  (forall greater,
     op_gt f1 f2 = Ok greater ->
     exists less less_eq,
       op_lt f1 f2 = Ok less /\ op_le f1 f2 = Ok less_eq /\
       exactly_one less (op_eq f1 f2) greater = true /\
       less_eq = negb greater).
Proof.
  intros C1 C2 F1 F2.
  unfold isFinite in F1, F2. apply negb_true_iff, Z.eqb_neq in F1, F2.
  pose proof (den_nonneg _ C1). pose proof (den_nonneg _ C2).
  split.
  - intros R1 R2. eexists. apply op_gt_Ok. eauto.
  - intros greater Hgt. pose proof Hgt as [R1 [R2 ->]]%op_gt_Ok.
    exists (m_num f2 * m_den f1 >? m_num f1 * m_den f2).
    exists (negb (m_num f1 * m_den f2 >? m_num f2 * m_den f1)).
    split; [apply op_gt_Ok; auto|].
    split; [unfold op_le; rewrite Hgt; reflexivity|].
    split; [|reflexivity].
    apply cross_products_trichotomy; (assumption || lia).
Qed.

(** ** Termination of [PGCD] *)

(** The constructor too calls [reduction()] on a receiver whose members are
    values of [T]. *)
Lemma Fraction2_reduces (num den : Z) (f : Fraction) :
  T_min <= num <= T_max -> T_min <= den <= T_max ->
  Fraction2 num den = Ok f ->
  exists raw,
    T_min <= m_num raw <= T_max /\ T_min <= m_den raw <= T_max /\
    reduction raw = Ok f.
Proof.
  intros Hn Hd. unfold Fraction2.
  destruct (den >? 0); intros Hf; invert_result; subst;
    eexists; (split; [|split; [|eassumption]]); simpl; lia.
Qed.

(** C9. Every call of [PGCD] that a public operation reaches terminates.
    Such a call is one of the two of [reduction()], made after the guard
    [m_den != 0] and the sign fix on a receiver whose members are values of
    [T]: its second argument is positive, none of its [%] divides by zero,
    and its loop meets the remainder 0 after fewer turns than the value of
    that second argument. *)
Theorem PGCD_reached_terminates (this this1 : Fraction) :
  T_min <= m_num this <= T_max -> T_min <= m_den this <= T_max ->
  m_den this <> 0 -> sign_fix this = Ok this1 ->
  (m_num this1 >= 0 -> PGCD_terminates (m_num this1) (m_den this1)) /\
  (m_num this1 < 0 ->
   forall a, t_mul (-1) (m_num this1) = Ok a ->
             PGCD_terminates a (m_den this1)).
Proof.
  intros Hn Hd Hd0 Hfix.
  pose proof (sign_fix_Ok _ _ Hd0 Hfix) as [Hpos [Hn1 Hd1]].
  assert (T_min <= m_num this1 <= T_max /\ m_den this1 <= T_max) as [Hn1' Hd1'].
  { unfold sign_fix in Hfix.
    destruct (m_den this <? 0); invert_result; subst; simpl; lia. }
  split.
  - intros Hge. split; [assumption|].
    destruct (PGCD_nonneg (m_num this1) (m_den this1)) as [HP [n [Hlt Hrun]]];
      [lia..|].
    exists n, (Z.gcd (m_num this1) (m_den this1)). auto.
  - intros Hneg a Ha. invert_result. subst a. split; [assumption|].
    destruct (PGCD_nonneg (-1 * m_num this1) (m_den this1))
      as [HP [n [Hlt Hrun]]]; [lia..|].
    exists n, (Z.gcd (-1 * m_num this1) (m_den this1)). auto.
Qed.

(** ** The examples of the test driver *)

Ltac in_T := pose proof T_min_max; pose proof T_max_int; simpl; lia.

(** Evaluates constructors and operators on literals, whatever [T] is:
    every intermediate value fits in 32 bits. *)
Ltac evaluate :=
  repeat (simpl;
          first [ rewrite Fraction2_defined by in_T
                | rewrite reduction_defined by in_T
                | rewrite representable_in by in_T
                | progress unfold op_plus, op_minus, op_mul, op_div,
                    op_plus_assign, op_minus_assign, op_mul_assign,
                    op_div_assign, t_mul, t_add, t_sub, set_num, set_den,
                    deref ]);
  vm_compute; reflexivity.

(** C4, as the code has it. On the operands of the test driver:
    [Fraction(100,150) + Fraction(2,5) == Fraction(16,15)];
    [Fraction(30,15) - Fraction(242,-10) == Fraction(131,5)], whose text
    form is "131/5"; and [Fraction(3,33) * Fraction(7,-21) ==
    Fraction(-1,33)]. *)
Theorem arithmetic_identities :
  (f1 <- Fraction2 100 150 ;; f2 <- Fraction2 2 5 ;;
   f <- op_plus f1 f2 ;; e <- Fraction2 16 15 ;; Ok (op_eq f e)) = Ok true /\
  (f3 <- Fraction2 30 15 ;; f4 <- Fraction2 242 (-10) ;;
   f <- op_minus f3 f4 ;; e <- Fraction2 131 5 ;; Ok (op_eq f e, op_out f))
  = Ok (true, "131/5"%string) /\
  (f5 <- Fraction2 3 33 ;; f6 <- Fraction2 7 (-21) ;;
   f <- op_mul f5 f6 ;; e <- Fraction2 (-1) 33 ;; Ok (op_eq f e)) = Ok true.
Proof.
  repeat split; evaluate.
Qed.

(** * Further properties *)

(** ** Classification and construction *)

(** X1. Every fraction is in exactly one of the three classes. *)
Theorem classification_exclusive (f : Fraction) :
  exactly_one (isFinite f) (isInf f) (isNan f) = true.
Proof.
  unfold exactly_one, isFinite, isInf, isNan.
  destruct (m_den f =? 0), (m_num f =? 0); reflexivity.
Qed.

(** X2. The two constructors agree on a denominator 1, and every zero
    numerator over a non-null denominator is built as 0/1. *)
Theorem Fraction2_whole (n d : Z) :
  T_min < n <= T_max -> T_min < d <= T_max -> d <> 0 ->
  Fraction2 n 1 = Ok (Fraction1 n) /\ Fraction2 0 d = Ok Fraction0.
Proof.
  intros Hn Hd Hd0. pose proof T_min_max. pose proof T_max_int.
  rewrite !Fraction2_defined by lia. split.
  - rewrite lowest_terms_fixed by (lia || apply Z.gcd_1_r). reflexivity.
  - unfold lowest_terms, Fraction0, Fraction1.
    rewrite Z.gcd_0_l, Z.mul_0_r, Z.div_0_l, Z.div_same by lia. reflexivity.
Qed.

(** Two finite canonical fractions with the same cross products are the
    same pair; stated on the members. *)
Lemma cross_equal (f1 f2 : Fraction) (n1 d1 n2 d2 : Z) :
  d1 <> 0 -> d2 <> 0 -> 0 < m_den f1 -> 0 < m_den f2 ->
  m_num f1 * d1 = n1 * m_den f1 -> m_num f2 * d2 = n2 * m_den f2 ->
  (m_num f1 * m_den f2 = m_num f2 * m_den f1 <-> n1 * d2 = n2 * d1).
Proof.
  intros Hd1 Hd2 Hp1 Hp2 H1 H2.
  destruct f1 as [a b], f2 as [c e]. simpl in *. split; intros H.
  - apply (Z.mul_reg_r _ _ (b * e)); [nia|].
    replace (n1 * d2 * (b * e)) with (n1 * b * d2 * e) by ring.
    replace (n2 * d1 * (b * e)) with (n2 * e * d1 * b) by ring.
    rewrite <- H1, <- H2.
    replace (a * d1 * d2 * e) with (a * e * d1 * d2) by ring.
    rewrite H. ring.
  - apply (Z.mul_reg_r _ _ (d1 * d2)); [nia|].
    replace (a * e * (d1 * d2)) with (a * d1 * e * d2) by ring.
    replace (c * b * (d1 * d2)) with (c * d2 * b * d1) by ring.
    rewrite H1, H2.
    replace (n1 * b * e * d2) with (n1 * d2 * b * e) by ring.
    rewrite H. ring.
Qed.

(** X3. The constructor gives one representative to a rational number:
    [Fraction(n1,d1) == Fraction(n2,d2)] exactly when [n1/d1 = n2/d2]. *)
Theorem Fraction2_equal_iff (n1 d1 n2 d2 : Z) (f1 f2 : Fraction) :
  d1 <> 0 -> d2 <> 0 ->
  Fraction2 n1 d1 = Ok f1 -> Fraction2 n2 d2 = Ok f2 ->
  (op_eq f1 f2 = true <-> n1 * d2 = n2 * d1).
Proof.
  intros Hd1 Hd2 H1 H2.
  pose proof (Fraction2_Ok _ _ _ Hd1 H1) as E1.
  pose proof (Fraction2_Ok _ _ _ Hd2 H2) as E2.
  destruct (lowest_terms_spec n1 d1 Hd1) as [P1 [_ V1]].
  destruct (lowest_terms_spec n2 d2 Hd2) as [P2 [_ V2]].
  rewrite <- E1 in P1, V1. rewrite <- E2 in P2, V2.
  rewrite <- (cross_equal f1 f2 n1 d1 n2 d2) by assumption.
  unfold op_eq. rewrite andb_true_iff, !Z.eqb_eq. split.
  - intros [-> ->]. reflexivity.
  - intros Hx. apply canonical_unique in Hx; try assumption.
    + rewrite Hx. auto.
    + rewrite E1. apply lowest_terms_canonical. assumption.
    + rewrite E2. apply lowest_terms_canonical. assumption.
Qed.

(** X4. On values of [T], the constructor has undefined behaviour exactly when
    one of its arguments is the minimum of [T], which cannot be negated. *)
Theorem Fraction2_returns_iff (num den : Z) :
  T_min <= num <= T_max -> T_min <= den <= T_max ->
  ((exists f, Fraction2 num den = Ok f) <-> T_min < num /\ T_min < den) /\
  (num = T_min \/ den = T_min -> Fraction2 num den = UB signed_overflow).
Proof.
  intros Hn Hd. pose proof T_min_max. pose proof T_max_int.
  assert (num = T_min \/ den = T_min -> Fraction2 num den = UB signed_overflow)
    as Hub.
  { assert (representable (- T_min) = UB signed_overflow) as Hneg.
    { unfold representable.
      replace (in_range (- T_min)) with false; [reflexivity|].
      symmetry. apply not_true_iff_false. rewrite in_range_iff. lia. }
    intros Hmin. unfold Fraction2, t_neg, t_mul. rewrite Z.gtb_ltb.
    destruct (Z.eq_dec den T_min) as [->|Hden].
    - destruct (Z.ltb_spec 0 T_min); [lia|]. rewrite Hneg. reflexivity.
    - destruct Hmin as [->|]; [|contradiction].
      destruct (Z.ltb_spec 0 den).
      + simpl. unfold reduction, sign_fix. simpl.
        destruct (Z.eqb_spec den 0); [lia|]. simpl.
        destruct (Z.ltb_spec den 0); [lia|]. simpl.
        rewrite Z.geb_leb. destruct (Z.leb_spec 0 T_min); [lia|].
        unfold t_mul. replace (-1 * T_min) with (- T_min) by lia.
        rewrite Hneg. reflexivity.
      + rewrite representable_in by lia. simpl.
        replace (T_min * -1) with (- T_min) by lia.
        rewrite Hneg. reflexivity. }
  split; [|exact Hub]. split.
  - intros [f Hf].
    destruct (Z.eq_dec num T_min) as [E|]; [rewrite Hub in Hf by auto; discriminate|].
    destruct (Z.eq_dec den T_min) as [E|]; [rewrite Hub in Hf by auto; discriminate|].
    lia.
  - intros [Hn' Hd']. destruct (Z.eq_dec den 0) as [->|Hd0].
    + rewrite Fraction2_null by lia. eauto.
    + rewrite Fraction2_defined by lia. eauto.
Qed.

(** ** [reduction()] on its own *)

(** The members that [reduction()] leaves fit in [T], away from its
    minimum. *)
Lemma reduction_Ok_range (this r : Fraction) :
  m_den this <> 0 -> reduction this = Ok r ->
  T_min < m_num r <= T_max /\ 0 < m_den r <= T_max.
Proof.
  intros Hd Hr. pose proof T_min_max.
  pose proof (reduction_Ok _ _ Hd Hr) as Er.
  destruct (lowest_terms_spec (m_num this) (m_den this) Hd) as [Hpos _].
  rewrite <- Er in Hpos. revert Hr. unfold reduction.
  destruct (Z.eqb_spec (m_den this) 0); [contradiction|]. simpl.
  intros Hr. apply bind_Ok in Hr as [this1 [Hfix Hr]].
  apply sign_fix_Ok in Hfix as [Hpos1 _]; [|assumption].
  apply bind_Ok in Hr as [g [Hg Hr]].
  pose proof (divisor_Ok _ _ Hpos1 Hg) as Eg.
  pose proof (gcd_pos (m_num this1) (m_den this1) ltac:(lia)) as Hgpos.
  rewrite <- Eg in Hgpos.
  apply bind_Ok in Hr as [n' [Hn' Hr]]. apply bind_Ok in Hr as [d' [Hd' Hr]].
  injection Hr as <-. simpl in *.
  unfold t_div in Hn', Hd'. destruct (Z.eqb_spec g 0); [lia|].
  apply representable_Ok in Hn' as [-> Rn], Hd' as [-> Rd].
  split; [|lia]. split; [|lia].
  rewrite Z.geb_leb in Hg. destruct (Z.leb_spec 0 (m_num this1)) as [Hge|Hlt].
  - pose proof (Z.quot_pos (m_num this1) g Hge ltac:(lia)). lia.
  - apply bind_Ok in Hg as [a [Ha _]]. apply representable_Ok in Ha as [_ Ra].
    destruct (Z.eq_dec (Z.quot (m_num this1) g) T_min) as [E|]; [|lia].
    pose proof (Z.quot_opp_l (m_num this1) g ltac:(lia)) as Hopp.
    assert (Z.quot (- m_num this1) g <= - m_num this1)
      by (apply Z.quot_le_upper_bound; nia).
    lia.
Qed.

(** X5. [reduction()] is idempotent: what it returns, it returns again. *)
Theorem reduction_idempotent (this r : Fraction) :
  reduction this = Ok r -> reduction r = Ok r.
Proof.
  intros Hr. destruct (Z.eq_dec (m_den this) 0) as [H0|H0].
  - rewrite reduction_null in Hr by assumption. injection Hr as <-.
    apply reduction_null. assumption.
  - destruct (reduction_Ok_range _ _ H0 Hr) as [Rn Rd].
    pose proof (reduction_canonical _ _ Hr) as [_ Hred _ _].
    pose proof T_min_max. pose proof T_max_int.
    rewrite reduction_defined by lia.
    rewrite lowest_terms_fixed by (lia || apply Hred; lia).
    destruct r. reflexivity.
Qed.

(** X6. On a non-null denominator [reduction()] keeps the rational number and
    leaves a finite fraction. *)
Theorem reduction_keeps_value (this r : Fraction) :
  m_den this <> 0 -> reduction this = Ok r ->
  isFinite r = true /\ (value r == value this)%Q.
Proof.
  intros Hd Hr. apply reduction_Ok in Hr; [|assumption]. subst r.
  destruct (lowest_terms_spec (m_num this) (m_den this) Hd) as [Hpos [_ Hval]].
  split.
  - unfold isFinite. apply negb_true_iff, Z.eqb_neq. lia.
  - apply Q_cross; [lia|assumption|assumption].
Qed.

(** ** [PGCD] on its own *)

Lemma quot_abs_le (x y : Z) : y <> 0 -> Z.abs (Z.quot x y) <= Z.abs x.
Proof.
  intros Hy. rewrite <- Z.quot_abs by assumption.
  apply Z.quot_le_upper_bound; [lia|]. nia.
Qed.

Lemma t_rem_defined (x y : Z) :
  T_min < x <= T_max -> y <> 0 -> t_rem x y = Ok (Z.rem x y).
Proof.
  intros Hx Hy. unfold t_rem. destruct (Z.eqb_spec y 0); [contradiction|].
  pose proof (quot_abs_le x y Hy). pose proof T_min_max.
  replace (in_range (Z.quot x y)) with true; [reflexivity|].
  symmetry. apply in_range_iff. lia.
Qed.

Lemma gcd_rem (b r : Z) : r <> 0 -> Z.gcd r (Z.rem b r) = Z.gcd b r.
Proof.
  intros Hr. rewrite Z.rem_eq by assumption.
  replace (b - r * Z.quot b r) with (b + (- Z.quot b r) * r) by ring.
  rewrite Z.gcd_add_mult_diag_r. apply Z.gcd_comm.
Qed.

(** Whatever the signs, the loop can only return a gcd, up to its sign. *)
Lemma PGCD_loop_abs (a b r g : Z) :
  PGCD_loop a b r = Ok g -> Z.abs g = Z.gcd b r.
Proof.
  funelim (PGCD_loop a b r); intros Hg.
  - subst r. injection Hg as <-. rewrite Z.gcd_0_r. reflexivity.
  - destruct (t_rem_Ok _ _ _ E) as [Hr Hr'].
    rewrite (H g) by assumption. rewrite Hr'. apply gcd_rem. assumption.
  - discriminate.
Qed.

Lemma PGCD_loop_defined (a b r : Z) :
  T_min < b <= T_max -> T_min < r <= T_max ->
  exists g, PGCD_loop a b r = Ok g.
Proof.
  funelim (PGCD_loop a b r); intros Hb Hr.
  - eauto.
  - destruct (t_rem_Ok _ _ _ E) as [Hr0 Hr'].
    pose proof (Z.rem_bound_abs b r Hr0). pose proof T_min_max.
    apply H; lia.
  - match goal with E : t_rem _ _ = UB _ |- _ => pose proof E as E' end.
    rewrite t_rem_defined in E' by assumption. discriminate E'.
Qed.

(** X7. The helper on every pair of values of [T] but its minimum: a null
    second argument is a division by zero; on any other, whatever the
    signs, [PGCD] returns the greatest common divisor or its opposite. *)
Theorem PGCD_total (a b : Z) :
  T_min < a <= T_max -> T_min < b <= T_max ->
  (b = 0 -> PGCD a b = UB division_by_zero) /\
  (b <> 0 -> exists g, PGCD a b = Ok g /\ Z.abs g = Z.gcd a b).
Proof.
  intros Ha Hb. split.
  - intros ->. reflexivity.
  - intros Hb0. unfold PGCD. rewrite t_rem_defined by assumption. simpl.
    pose proof (Z.rem_bound_abs a b Hb0). pose proof T_min_max.
    destruct (PGCD_loop_defined a b (Z.rem a b)) as [g Hg]; [lia..|].
    exists g. split; [assumption|].
    rewrite (PGCD_loop_abs _ _ _ _ Hg). apply gcd_rem. assumption.
Qed.

(** Every two turns of the loop halve the remainder. *)
Lemma loop_runs_log (n : nat) :
  forall a b r g,
    loop_runs n a b r g -> 0 <= r < b ->
    Z.of_nat n <= 2 * Z.log2 r + 2.
Proof.
  induction n as [n IH] using lt_wf_ind. intros a b r g Hrun Hr.
  pose proof (Z.log2_nonneg r) as Hlog.
  destruct n as [|[|m]]; [lia|lia|].
  inversion Hrun as [|? ? ? ? r1 ? Hr0 Hrem1 Hrun1]; subst.
  inversion Hrun1 as [|? ? ? ? r2 ? Hr10 Hrem2 Hrun2]; subst.
  apply t_rem_Ok in Hrem1 as [_ E1], Hrem2 as [_ E2].
  rewrite Z.rem_mod_nonneg in E1 by lia.
  pose proof (Z.mod_pos_bound b r ltac:(lia)) as B1. rewrite <- E1 in B1.
  rewrite Z.rem_mod_nonneg in E2 by lia.
  pose proof (Z.mod_pos_bound r r1 ltac:(lia)) as B2.
  pose proof (Z.div_mod r r1 ltac:(lia)) as Hdiv.
  rewrite <- E2 in B2, Hdiv.
  assert (1 <= r / r1) by (apply Z.div_le_lower_bound; lia).
  assert (2 * r2 < r) as Hhalf by nia.
  specialize (IH m ltac:(lia) _ _ _ _ Hrun2 ltac:(lia)).
  destruct (Z.eq_dec r2 0) as [E0|Hne].
  - rewrite E0 in Hrun2. inversion Hrun2; subst; [lia|contradiction].
  - assert (Z.log2 r2 + 1 <= Z.log2 r).
    { rewrite Z.add_1_r, <- Z.log2_double by lia.
      apply Z.log2_le_mono. lia. }
    lia.
Qed.

(** X8. On the arguments that [reduction()] passes, the loop of [PGCD] takes at
    most [2 * log2 b + 2] turns: 62 turns on [int32_t]. *)
Theorem PGCD_turns (a b : Z) :
  0 <= a <= T_max -> 0 < b <= T_max ->
  exists n,
    PGCD_runs n a b (Z.gcd a b) /\ Z.of_nat n <= 2 * Z.log2 b + 2.
Proof.
  intros Ha Hb. destruct (PGCD_nonneg a b Ha Hb) as [_ [n [_ Hrun]]].
  exists n. split; [assumption|].
  destruct Hrun as [r [Hr Hrun]].
  rewrite t_rem_nonneg in Hr by lia. injection Hr as <-.
  pose proof (Z.mod_pos_bound a b ltac:(lia)).
  pose proof (loop_runs_log n _ _ _ _ Hrun ltac:(lia)).
  pose proof (Z.log2_le_mono (a mod b) b ltac:(lia)). lia.
Qed.

(** ** The four operators as operations on rational numbers *)

Lemma value_eq_cross (f1 f2 : Fraction) :
  m_den f1 <> 0 -> m_den f2 <> 0 ->
  ((value f1 == value f2)%Q <-> m_num f1 * m_den f2 = m_num f2 * m_den f1).
Proof.
  intros Hd1 Hd2. split.
  - unfold value. intros H.
    assert (~ (inject_Z (m_den f1) == 0)%Q) as Hb by (unfold Qeq; simpl; lia).
    assert (~ (inject_Z (m_den f2) == 0)%Q) as Hd by (unfold Qeq; simpl; lia).
    apply inject_Z_injective. rewrite !inject_Z_mult.
    transitivity (inject_Z (m_num f1) / inject_Z (m_den f1)
                  * (inject_Z (m_den f1) * inject_Z (m_den f2)))%Q;
      [field; assumption|].
    rewrite H. field. assumption.
  - intros H. apply Q_cross; assumption.
Qed.

Lemma canonical_value_eq (f1 f2 : Fraction) :
  canonical f1 -> canonical f2 -> m_den f1 <> 0 -> m_den f2 <> 0 ->
  (value f1 == value f2)%Q -> f1 = f2.
Proof.
  intros C1 C2 Hd1 Hd2 H%value_eq_cross; [|assumption..].
  pose proof (den_nonneg _ C1). pose proof (den_nonneg _ C2).
  apply canonical_unique; (assumption || lia).
Qed.

(** A binary operator reduces the unreduced pair. *)
Lemma binary_raw (o : operator) (f1 f2 r : Fraction) :
  binary o f1 f2 = Ok r ->
  reduction {| m_num := fst (unreduced o f1 f2);
               m_den := snd (unreduced o f1 f2) |} = Ok r.
Proof.
  destruct o; simpl;
    unfold op_plus, op_minus, op_mul, op_div,
      op_plus_assign, op_minus_assign, op_mul_assign, op_div_assign;
    intros H; invert_result; subst; simpl in *; assumption.
Qed.

Lemma unreduced_value (o : operator) (f1 f2 : Fraction) :
  m_den f1 <> 0 -> m_den f2 <> 0 -> (o = Divide -> m_num f2 <> 0) ->
  snd (unreduced o f1 f2) <> 0 /\
  (inject_Z (fst (unreduced o f1 f2)) / inject_Z (snd (unreduced o f1 f2))
   == Q_op o (value f1) (value f2))%Q.
Proof.
  intros Hd1 Hd2 Hn2. unfold value.
  assert (~ (inject_Z (m_den f1) == 0)%Q) as Hb by (unfold Qeq; simpl; lia).
  assert (~ (inject_Z (m_den f2) == 0)%Q) as Hd by (unfold Qeq; simpl; lia).
  destruct o; simpl;
    try (split; [nia|]; unfold Z.sub;
         rewrite ?inject_Z_plus, ?inject_Z_opp, ?inject_Z_mult;
         field; auto).
  specialize (Hn2 eq_refl).
  assert (~ (inject_Z (m_num f2) == 0)%Q) as Hn by (unfold Qeq; simpl; lia).
  split; [nia|]. rewrite !inject_Z_mult. field. auto.
Qed.

Lemma binary_Q (o : operator) (f1 f2 r : Fraction) :
  m_den f1 <> 0 -> m_den f2 <> 0 -> (o = Divide -> m_num f2 <> 0) ->
  binary o f1 f2 = Ok r ->
  canonical r /\ m_den r <> 0 /\
  (value r == Q_op o (value f1) (value f2))%Q.
Proof.
  intros Hd1 Hd2 Hn2 Hr%binary_raw.
  destruct (unreduced_value o f1 f2 Hd1 Hd2 Hn2) as [Hraw Hval].
  split; [eapply reduction_canonical; eassumption|].
  apply reduction_Ok in Hr; [|assumption]. subst r. cbn [m_num m_den].
  destruct (lowest_terms_spec (fst (unreduced o f1 f2)) _ Hraw)
    as [Hpos [_ Hx]].
  split; [lia|]. rewrite <- Hval. apply Q_cross; [lia|assumption|assumption].
Qed.

(** X9. The operators are exact: on finite operands (and a non-zero divisor)
    the fraction that [+], [-], [*] or [/] returns is finite and stands for
    the sum, the difference, the product or the quotient of the two
    rational numbers. *)
Theorem binary_exact (o : operator) (f1 f2 r : Fraction) :
  isFinite f1 = true -> isFinite f2 = true ->
  (o = Divide -> m_num f2 <> 0) ->
  binary o f1 f2 = Ok r ->
  isFinite r = true /\ (value r == Q_op o (value f1) (value f2))%Q.
Proof.
  unfold isFinite. rewrite !negb_true_iff, !Z.eqb_neq.
  intros Hd1 Hd2 Hn2 Hr.
  destruct (binary_Q o f1 f2 r Hd1 Hd2 Hn2 Hr) as [_ [Hd Hv]]. auto.
Qed.

(** X10. An operator returns as long as no product, sum or difference leaves
    [T] and neither member of the unreduced pair is the minimum of [T]. *)
Theorem binary_returns (o : operator) (f1 f2 : Fraction) :
  T_min <= m_num f1 * m_den f2 <= T_max ->
  T_min <= m_num f2 * m_den f1 <= T_max \/ o = Times ->
  T_min < fst (unreduced o f1 f2) <= T_max ->
  T_min < snd (unreduced o f1 f2) <= T_max ->
  exists r, binary o f1 f2 = Ok r /\ assign o f1 (to_other f2) = Ok r.
Proof.
  intros H1 H2 Hn Hd. rewrite <- binary_assign.
  rewrite (binary_value o f1 f2 H1 H2 Hn Hd). eauto.
Qed.

(** X11. [+] and [*] are commutative, undefined behaviour included. *)
Theorem plus_times_commute (f1 f2 : Fraction) :
  op_plus f1 f2 = op_plus f2 f1 /\ op_mul f1 f2 = op_mul f2 f1.
Proof.
  unfold op_plus, op_mul, op_plus_assign, op_mul_assign, t_mul, t_add,
    representable. simpl.
  rewrite (Z.mul_comm (m_den f2) (m_den f1)). split.
  - destruct (in_range (m_num f1 * m_den f2)),
      (in_range (m_num f2 * m_den f1)); simpl;
      try rewrite (Z.add_comm (m_num f2 * m_den f1)); reflexivity.
  - rewrite (Z.mul_comm (m_num f2) (m_num f1)). reflexivity.
Qed.

(** ** Neutral elements, inverses and aliasing *)

Lemma canonical_reduction_fixed (x : Fraction) :
  canonical x -> T_min < m_num x <= T_max -> m_den x <= T_max ->
  reduction x = Ok x.
Proof.
  intros [Hnn Hred _ _] Hn Hd. pose proof T_min_max.
  destruct (Z.eq_dec (m_den x) 0) as [H0|H0].
  - apply reduction_null. assumption.
  - rewrite reduction_defined by lia.
    rewrite lowest_terms_fixed by (lia || apply Hred; lia).
    destruct x. reflexivity.
Qed.

(** X12. Adding or subtracting 0/1 and multiplying or dividing by 1/1 give back
    a canonical fraction as it is, be it finite, infinite or NaN. *)
Theorem neutral_elements (x : Fraction) :
  canonical x -> T_min < m_num x <= T_max -> m_den x <= T_max ->
  op_plus x Fraction0 = Ok x /\ op_minus x Fraction0 = Ok x /\
  op_mul x (Fraction1 1) = Ok x /\ op_div x (Fraction1 1) = Ok x.
Proof.
  intros Hc Hn Hd. pose proof (den_nonneg _ Hc). pose proof T_min_max.
  pose proof (canonical_reduction_fixed x Hc Hn Hd) as Hfix.
  destruct x as [n d].
  unfold op_plus, op_minus, op_mul, op_div,
    op_plus_assign, op_minus_assign, op_mul_assign, op_div_assign,
    t_mul, t_add, t_sub; simpl in *.
  rewrite !Z.mul_1_r, ?Z.mul_0_r.
  rewrite !representable_0, !(representable_in n), !(representable_in d) by lia.
  simpl. rewrite Z.add_0_r, Z.sub_0_r, !(representable_in n) by lia. simpl.
  auto.
Qed.

Lemma lowest_terms_zero (m : Z) : m <> 0 -> lowest_terms 0 m = Fraction0.
Proof.
  intros Hm. unfold lowest_terms, Fraction0, Fraction1.
  rewrite Z.gcd_0_l, Z.mul_0_r, Z.div_0_l, Z.div_same by lia. reflexivity.
Qed.

Lemma lowest_terms_multiple (m d : Z) :
  m <> 0 -> 0 < d -> lowest_terms m (d * m) = {| m_num := 1; m_den := d |}.
Proof.
  intros Hm Hd. unfold lowest_terms.
  assert (Z.gcd m (d * m) = Z.abs m) as ->.
  { rewrite <- (Z.mul_1_l m) at 1.
    rewrite Z.gcd_mul_mono_r, Z.gcd_1_l. lia. }
  rewrite Z.sgn_mul, (Z.sgn_pos d), Z.mul_1_l, (Z.mul_comm (Z.sgn m)) by lia.
  rewrite Z.sgn_abs, Z.abs_mul, (Z.abs_eq d), Z.div_same, Z.div_mul by lia.
  reflexivity.
Qed.

(** X13. A finite fraction minus itself is 0/1, times zero is 0/1, and, when it
    is not zero, divided by itself through the binary [/] is 1/1. *)
Theorem self_inverse (x : Fraction) :
  0 < m_den x -> T_min < m_num x * m_den x <= T_max ->
  m_den x * m_den x <= T_max ->
  op_minus x x = Ok Fraction0 /\ op_mul x Fraction0 = Ok Fraction0 /\
  (m_num x <> 0 -> op_div x x = Ok (Fraction1 1)).
Proof.
  intros Hd Hnd Hdd. pose proof T_min_max. pose proof T_max_int.
  assert (T_min < m_num x <= T_max) by nia.
  assert (m_den x <= T_max) by nia.
  assert (forall o, T_min <= m_num x * m_den x <= T_max \/ o = Times)
    as Hleft by (intros o; left; lia).
  split; [|split].
  - change (op_minus x x) with (binary Minus x x).
    rewrite binary_value by (simpl; first [lia | nia | apply Hleft]). simpl.
    destruct (Z.eqb_spec (m_den x * m_den x) 0); [nia|].
    rewrite Z.sub_diag, lowest_terms_zero by assumption. reflexivity.
  - change (op_mul x Fraction0) with (binary Times x Fraction0).
    rewrite binary_value by (simpl; first [lia | nia | right; reflexivity]).
    simpl. rewrite Z.mul_0_r, Z.mul_1_r.
    destruct (Z.eqb_spec (m_den x) 0); [lia|].
    rewrite lowest_terms_zero by assumption. reflexivity.
  - intros Hn. change (op_div x x) with (binary Divide x x).
    rewrite binary_value by (simpl; first [lia | nia | apply Hleft]). simpl.
    destruct (Z.eqb_spec (m_den x * m_num x) 0); [nia|].
    rewrite <- (Z.mul_1_l (m_den x * m_num x)), (Z.mul_comm (m_den x)).
    rewrite lowest_terms_multiple by (lia || nia). reflexivity.
Qed.

(** X14. [x += x], [x -= x] and [x *= x] do what the binary operators do on two
    copies of [x].  [x /= x] does not: the second statement of [operator/=]
    reads the numerator that the first one has just overwritten, and a
    finite non-zero [x] becomes 1/den, not 1/1. *)
Theorem self_assignment (x : Fraction) :
  assign Plus x to_this = binary Plus x x /\
  assign Minus x to_this = binary Minus x x /\
  assign Times x to_this = binary Times x x /\
  (0 < m_den x -> m_num x <> 0 ->
   T_min < m_num x * m_den x <= T_max ->
   T_min < m_den x * (m_num x * m_den x) <= T_max ->
   assign Divide x to_this = Ok {| m_num := 1; m_den := m_den x |}).
Proof.
  repeat split. intros Hd Hn R1 R2. simpl.
  unfold op_div_assign, t_mul. simpl.
  rewrite representable_in by lia. simpl.
  rewrite representable_in by lia. simpl.
  rewrite reduction_defined by (simpl; lia || nia). simpl.
  apply f_equal, lowest_terms_multiple; (lia || nia).
Qed.

(** X15. Subtracting what was added, adding what was subtracted, dividing by
    what was multiplied and multiplying by what was divided give back the
    canonical finite fraction one started from, whenever both operations
    return. *)
Theorem inverse_undoes (o : operator) (a b s r : Fraction) :
  canonical a -> isFinite a = true -> isFinite b = true ->
  (o = Times \/ o = Divide -> m_num b <> 0) ->
  binary o a b = Ok s -> binary (inverse o) s b = Ok r ->
  r = a.
Proof.
  unfold isFinite. rewrite !negb_true_iff, !Z.eqb_neq.
  intros Ca Ha Hb Hnb Hs Hr.
  destruct (binary_Q o a b s Ha Hb ltac:(auto) Hs) as [_ [Hds Hvs]].
  assert (inverse o = Divide -> m_num b <> 0) as Hnb'
    by (destruct o; try discriminate; auto).
  destruct (binary_Q (inverse o) s b r Hds Hb Hnb' Hr) as [Cr [Hdr Hvr]].
  apply canonical_value_eq; try assumption.
  assert (~ (inject_Z (m_den a) == 0)%Q) as Qa by (unfold Qeq; simpl; lia).
  assert (~ (inject_Z (m_den b) == 0)%Q) as Qb by (unfold Qeq; simpl; lia).
  destruct o; simpl in Hvr, Hvs; rewrite Hvr, Hvs; unfold value.
  - field. auto.
  - field. auto.
  - assert (~ (inject_Z (m_num b) == 0)%Q) as Qn
      by (specialize (Hnb ltac:(auto)); unfold Qeq; simpl; lia).
    field. auto.
  - assert (~ (inject_Z (m_num b) == 0)%Q) as Qn
      by (specialize (Hnb ltac:(auto)); unfold Qeq; simpl; lia).
    field. auto.
Qed.

(** ** Arithmetic on infinite and not-a-number operands *)

(** X16. Two operands with a null denominator, infinite or not, add, subtract
    and divide to the NaN: Inf + Inf is not Inf.  They multiply to the pair
    of the product of the numerators over 0. *)
Theorem non_finite_arithmetic (f1 f2 : Fraction) :
  isFinite f1 = false -> isFinite f2 = false ->
  op_plus f1 f2 = Ok NaN /\ op_minus f1 f2 = Ok NaN /\
  op_div f1 f2 = Ok NaN /\
  (T_min <= m_num f1 * m_num f2 <= T_max ->
   op_mul f1 f2 = Ok {| m_num := m_num f1 * m_num f2; m_den := 0 |}).
Proof.
  intros H1%isFinite_false H2%isFinite_false.
  unfold op_plus, op_minus, op_mul, op_div,
    op_plus_assign, op_minus_assign, op_mul_assign, op_div_assign.
  repeat split;
    try (intros R; unfold t_mul at 1; rewrite representable_in by assumption);
    repeat (progress (simpl; rewrite ?H1, ?H2, ?t_mul_0_r, ?t_mul_0_l;
                      unfold t_add, t_sub; simpl; rewrite ?representable_0));
    reflexivity.
Qed.

(** X17. An infinite plus or minus a finite fraction, and a finite fraction
    plus an infinite, is the infinite whose numerator is multiplied by the
    finite denominator: it is the same infinite pair only for a whole
    number. *)
Theorem infinite_plus_finite (i x : Fraction) :
  isInf i = true -> 0 < m_den x ->
  T_min <= m_num i * m_den x <= T_max ->
  exists r,
    op_plus i x = Ok r /\ op_minus i x = Ok r /\ op_plus x i = Ok r /\
    isInf r = true /\ m_num r = m_num i * m_den x.
Proof.
  unfold isInf at 1. rewrite andb_true_iff, negb_true_iff, Z.eqb_eq, Z.eqb_neq.
  intros [Hd Hn] Hx R.
  exists {| m_num := m_num i * m_den x; m_den := 0 |}.
  unfold op_plus, op_minus, op_plus_assign, op_minus_assign. simpl.
  rewrite Hd, !t_mul_0_r, !t_mul_0_l. unfold t_mul.
  rewrite !representable_in by assumption. simpl.
  unfold t_add, t_sub. rewrite Z.add_0_r, Z.sub_0_r, Z.add_0_l.
  rewrite !representable_in by assumption. simpl.
  repeat split. unfold isInf. simpl. apply negb_true_iff, Z.eqb_neq. nia.
Qed.

(** X18. A finite fraction divided by an infinite is 0/1, and an infinite times
    zero is the NaN. *)
Theorem infinite_divisor (i x : Fraction) :
  isInf i = true -> 0 < m_den x ->
  T_min < m_den x * m_num i <= T_max ->
  op_div x i = Ok Fraction0 /\ op_mul i Fraction0 = Ok NaN.
Proof.
  unfold isInf at 1. rewrite andb_true_iff, negb_true_iff, Z.eqb_eq, Z.eqb_neq.
  intros [Hd Hn] Hx R. pose proof T_min_max. pose proof T_max_int.
  unfold op_div, op_mul, op_div_assign, op_mul_assign. simpl.
  rewrite Hd, !t_mul_0_r. simpl. rewrite t_mul_0_l. unfold t_mul.
  rewrite representable_in by lia. simpl. split; [|reflexivity].
  rewrite reduction_defined by (simpl; lia || nia). simpl.
  rewrite lowest_terms_zero by nia. reflexivity.
Qed.

(** ** Equality and order *)

Lemma op_eq_true (f1 f2 : Fraction) : op_eq f1 f2 = true <-> f1 = f2.
Proof.
  unfold op_eq. rewrite andb_true_iff, !Z.eqb_eq.
  destruct f1, f2. simpl. split.
  - intros [-> ->]. reflexivity.
  - intros [= -> ->]. auto.
Qed.

(** X19. On finite canonical fractions [==] is the equality of the rational
    numbers. *)
Theorem op_eq_value (f1 f2 : Fraction) :
  canonical f1 -> canonical f2 ->
  isFinite f1 = true -> isFinite f2 = true ->
  (op_eq f1 f2 = true <-> (value f1 == value f2)%Q).
Proof.
  unfold isFinite. rewrite !negb_true_iff, !Z.eqb_neq.
  intros C1 C2 F1 F2. rewrite op_eq_true. split.
  - intros ->. reflexivity.
  - apply canonical_value_eq; assumption.
Qed.

(** X20. Infinite results are not normalised: [n1/0] and [n2/0], obtained by
    dividing two different non-zero whole numbers by zero, are both
    infinite and are not [==], whatever their signs. *)
Theorem infinite_not_normalised (n1 n2 : Z) :
  T_min <= n1 <= T_max -> T_min <= n2 <= T_max ->
  n1 <> 0 -> n2 <> 0 -> n1 <> n2 ->
  exists i1 i2,
    op_div (Fraction1 n1) Fraction0 = Ok i1 /\
    op_div (Fraction1 n2) Fraction0 = Ok i2 /\
    isInf i1 = true /\ isInf i2 = true /\ op_eq i1 i2 = false.
Proof.
  intros R1 R2 H1 H2 Hne.
  assert (forall n, T_min <= n <= T_max ->
                    op_div (Fraction1 n) Fraction0
                    = Ok {| m_num := n; m_den := 0 |}) as Hdiv.
  { intros n R. unfold op_div, op_div_assign, t_mul. simpl.
    rewrite Z.mul_1_r, representable_in by assumption. simpl.
    rewrite representable_0. reflexivity. }
  exists {| m_num := n1; m_den := 0 |}, {| m_num := n2; m_den := 0 |}.
  rewrite !Hdiv by assumption. unfold isInf, op_eq. simpl.
  repeat split; try (apply negb_true_iff, Z.eqb_neq; assumption).
  apply andb_false_iff. left. apply Z.eqb_neq. assumption.
Qed.

Lemma value_lt_cross (f1 f2 : Fraction) :
  0 < m_den f1 -> 0 < m_den f2 ->
  ((value f2 < value f1)%Q <-> m_num f2 * m_den f1 < m_num f1 * m_den f2).
Proof.
  intros D1 D2.
  assert (forall f, 0 < m_den f -> (value f == m_num f # Z.to_pos (m_den f))%Q)
    as Hmake.
  { intros f Hf. unfold value. rewrite Qmake_Qdiv, Z2Pos.id by assumption.
    reflexivity. }
  rewrite (Hmake f1 D1), (Hmake f2 D2). unfold Qlt. simpl.
  rewrite !Z2Pos.id by assumption. reflexivity.
Qed.

(** X21. On fractions with positive denominators [>] is the order of the
    rational numbers. *)
Theorem op_gt_value (f1 f2 : Fraction) (greater : bool) :
  0 < m_den f1 -> 0 < m_den f2 ->
  op_gt f1 f2 = Ok greater ->
  (greater = true <-> (value f2 < value f1)%Q).
Proof.
  intros D1 D2 [_ [_ ->]]%op_gt_Ok.
  rewrite value_lt_cross by assumption.
  rewrite Z.gtb_ltb. apply Z.ltb_lt.
Qed.

(** X22. [>] is a strict order: never [f > f]; never both [f1 > f2] and
    [f2 > f1]; and, on positive denominators, [f1 > f2] and [f2 > f3] give
    [f1 > f3] whenever that comparison returns. *)
Theorem op_gt_strict_order (f1 f2 f3 : Fraction) :
  (forall b, op_gt f1 f1 = Ok b -> b = false) /\
  (op_gt f1 f2 = Ok true -> op_gt f2 f1 = Ok false) /\
  (0 < m_den f1 -> 0 < m_den f2 -> 0 < m_den f3 ->
   op_gt f1 f2 = Ok true -> op_gt f2 f3 = Ok true ->
   forall b, op_gt f1 f3 = Ok b -> b = true).
Proof.
  split; [|split].
  - intros b [_ [_ ->]]%op_gt_Ok. rewrite Z.gtb_ltb. apply Z.ltb_irrefl.
  - intros [R1 [R2 H]]%op_gt_Ok. apply op_gt_Ok.
    split; [assumption|]. split; [assumption|].
    symmetry in H. rewrite Z.gtb_ltb in *. apply Z.ltb_lt in H.
    symmetry. apply Z.ltb_ge. lia.
  - intros D1 D2 D3 [_ [_ H12]]%op_gt_Ok [_ [_ H23]]%op_gt_Ok b
      [_ [_ ->]]%op_gt_Ok.
    symmetry in H12, H23. rewrite Z.gtb_ltb in *.
    apply Z.ltb_lt in H12, H23. apply Z.ltb_lt.
    apply (Z.mul_lt_mono_pos_r (m_den f2)); [assumption|].
    apply Z.lt_trans with (m_num f2 * m_den f1 * m_den f3); nia.
Qed.

(** X23. The NaN is neither greater nor smaller than any fraction [x], so that
    both [x <= NaN] and [x >= NaN] hold, on either side; yet [x == NaN]
    only if [x] is the NaN. *)
Theorem NaN_comparisons (x : Fraction) :
  op_gt NaN x = Ok false /\ op_gt x NaN = Ok false /\
  op_lt NaN x = Ok false /\ op_lt x NaN = Ok false /\
  op_le NaN x = Ok true /\ op_le x NaN = Ok true /\
  op_ge NaN x = Ok true /\ op_ge x NaN = Ok true /\
  op_eq x NaN = isNan x /\ op_ne x NaN = negb (isNan x).
Proof.
  assert (op_gt NaN x = Ok false /\ op_gt x NaN = Ok false) as [H1 H2].
  { unfold op_gt. simpl. rewrite !t_mul_0_l, !t_mul_0_r. auto. }
  unfold op_lt, op_le, op_ge, op_ne. rewrite H1, H2. simpl.
  repeat split; unfold op_eq, isNan; simpl; rewrite andb_comm; reflexivity.
Qed.

(** X24. An infinite is greater than every fraction with a positive denominator
    when its numerator is positive, and smaller when it is negative. *)
Theorem infinite_order (i x : Fraction) :
  isInf i = true -> 0 < m_den x ->
  T_min <= m_num i * m_den x <= T_max ->
  op_gt i x = Ok (0 <? m_num i) /\ op_lt i x = Ok (m_num i <? 0).
Proof.
  unfold isInf. rewrite andb_true_iff, negb_true_iff, Z.eqb_eq, Z.eqb_neq.
  intros [Hd Hn] Hx R. unfold op_lt, op_gt.
  rewrite Hd, !t_mul_0_r. unfold t_mul. rewrite representable_in by assumption.
  simpl. rewrite !Z.gtb_ltb. split; f_equal.
  - destruct (Z.ltb_spec 0 (m_num i * m_den x)), (Z.ltb_spec 0 (m_num i));
      (reflexivity || nia).
  - destruct (Z.ltb_spec (m_num i * m_den x) 0), (Z.ltb_spec (m_num i) 0);
      (reflexivity || nia).
Qed.


(** X26. On finite canonical fractions [<=] is [<] or [==], and it is
    antisymmetric. *)
Theorem op_le_order (f1 f2 : Fraction) :
  canonical f1 -> canonical f2 ->
  isFinite f1 = true -> isFinite f2 = true ->
  (forall b, op_le f1 f2 = Ok b ->
             exists less, op_lt f1 f2 = Ok less /\ b = less || op_eq f1 f2) /\
  (op_le f1 f2 = Ok true -> op_le f2 f1 = Ok true -> f1 = f2).
Proof.
  unfold isFinite. rewrite !negb_true_iff, !Z.eqb_neq.
  intros C1 C2 F1 F2.
  pose proof (den_nonneg _ C1). pose proof (den_nonneg _ C2).
  pose proof (cross_products_trichotomy f1 f2 C1 C2 ltac:(lia) ltac:(lia))
    as Htri.
  unfold op_le, op_lt. split.
  - intros b Hb. apply bind_Ok in Hb as [g [Hg [= <-]]].
    pose proof Hg as [R1 [R2 ->]]%op_gt_Ok.
    eexists. split; [apply op_gt_Ok; eauto|].
    unfold exactly_one in Htri.
    destruct (m_num f2 * m_den f1 >? m_num f1 * m_den f2),
      (op_eq f1 f2), (m_num f1 * m_den f2 >? m_num f2 * m_den f1);
      (reflexivity || discriminate).
  - intros H12 H21.
    apply bind_Ok in H12 as [g12 [[_ [_ ->]]%op_gt_Ok [= E12]]].
    apply bind_Ok in H21 as [g21 [[_ [_ ->]]%op_gt_Ok [= E21]]].
    apply negb_true_iff in E12, E21. rewrite Z.gtb_ltb in E12, E21.
    apply Z.ltb_ge in E12, E21.
    apply canonical_unique; (assumption || lia).
Qed.

(** ** The text form *)

Lemma uint_decimal (d : uint) : all_decimal (NilEmpty.string_of_uint d) = true.
Proof. induction d; simpl; auto. Qed.

Lemma out_int_decimal (x : Z) :
  all_decimal (out_int x) = true /\ out_int x <> EmptyString.
Proof.
  unfold out_int. destruct x as [|p|p]; simpl.
  - split; [reflexivity|discriminate].
  - pose proof (uint_decimal (Pos.to_uint p)).
    pose proof (DecimalPos.Unsigned.to_uint_nonnil p).
    unfold NilZero.string_of_uint.
    destruct (Pos.to_uint p); try contradiction; split;
      (assumption || discriminate).
  - pose proof (uint_decimal (Pos.to_uint p)).
    unfold NilZero.string_of_uint.
    destruct (Pos.to_uint p); split; (assumption || discriminate || reflexivity).
Qed.

Lemma out_int_inj (x y : Z) : out_int x = out_int y -> x = y.
Proof.
  unfold out_int. intros H.
  assert (forall z, NilZero.int_of_string (NilZero.string_of_int (Z.to_int z))
                    = Some (Z.to_int z)) as Hparse.
  { intros z. apply NilZero.isi; destruct z as [|p|p]; simpl;
      try discriminate;
      intros [= E]; exact (DecimalPos.Unsigned.to_uint_nonnil p E). }
  apply DecimalZ.to_int_inj.
  pose proof (Hparse x) as Hx. rewrite H, Hparse in Hx.
  injection Hx as Hx. symmetry. exact Hx.
Qed.

(** Two texts, each a decimal integer, a slash and a rest, are equal only
    if the integers and the rests are. *)
Lemma slash_split (s1 s2 t1 t2 : string) :
  all_decimal s1 = true -> all_decimal s2 = true ->
  (s1 ++ "/" ++ t1)%string = (s2 ++ "/" ++ t2)%string ->
  s1 = s2 /\ t1 = t2.
Proof.
  revert s2. induction s1 as [|c s1 IH]; intros [|c' s2] H1 H2 H; simpl in *.
  - injection H as H. auto.
  - injection H as Hc _. subst c'. discriminate H2.
  - injection H as Hc _. subst c. discriminate H1.
  - injection H as -> H.
    apply andb_true_iff in H1 as [_ H1], H2 as [_ H2].
    destruct (IH s2 H1 H2 H) as [-> ->]. auto.
Qed.

Lemma op_out_finite (f : Fraction) :
  isFinite f = true ->
  op_out f = (out_int (m_num f) ++ "/" ++ out_int (m_den f))%string.
Proof.
  unfold isFinite, op_out, isNan, isInf. intros H%negb_true_iff.
  rewrite H. reflexivity.
Qed.

Lemma op_out_head (f : Fraction) :
  isFinite f = true ->
  exists c s, op_out f = String c s /\ decimal_char c = true.
Proof.
  intros H. rewrite op_out_finite by assumption.
  destruct (out_int_decimal (m_num f)) as [Hdec Hne].
  destruct (out_int (m_num f)) as [|c s]; [contradiction|].
  simpl in *. apply andb_true_iff in Hdec as [Hc _]. eauto.
Qed.

(** X27. The text is "NaN" for the not-a-numbers only and "Inf" for the
    infinites only, whose sign and numerator it does not show. *)
Theorem op_out_class (f : Fraction) :
  (op_out f = "NaN"%string <-> isNan f = true) /\
  (op_out f = "Inf"%string <-> isInf f = true).
Proof.
  pose proof (op_out_head f) as Hhead.
  unfold op_out, isFinite, isNan, isInf in *.
  destruct (m_den f =? 0), (m_num f =? 0); simpl in *;
    split; split; intros H; try reflexivity; try discriminate H; exfalso;
    destruct (Hhead eq_refl) as [c [s [E Hc]]]; rewrite H in E;
    injection E as <- _; discriminate Hc.
Qed.

(** X28. Two finite fractions with the same text are the same pair: the text
    form loses nothing of a finite fraction. *)
Theorem op_out_injective (f1 f2 : Fraction) :
  isFinite f1 = true -> isFinite f2 = true ->
  op_out f1 = op_out f2 -> f1 = f2.
Proof.
  intros F1 F2. rewrite !op_out_finite by assumption. intros H.
  apply slash_split in H as [Hn Hd]; try apply out_int_decimal.
  apply out_int_inj in Hn, Hd. destruct f1, f2. simpl in *. congruence.
Qed.

(** ** The test driver *)

(** X29. [main] runs its five tests on [int32_t] without overflow or division
    by zero, returns 0 and writes the text below.  Its last test shows
    [Fraction(1,0)], printed "Inf", below 0/1. *)
Theorem main_output :
  main = Ok
    (("Test 1: Nominal case (positive values)" ++ endl ++
      "2/3 + 2/5 = 16/15" ++ endl ++
      "2/3 - 2/5 = 4/15" ++ endl ++
      "2/3 * 2/5 = 4/15" ++ endl ++
      "2/3 / 2/5 = 5/3" ++ endl ++
      "2/3 > 2/5" ++ endl ++
      "2/3 >= 2/5" ++ endl ++
      "2/3 != 2/5" ++ endl ++
      endl ++
      "Test 2: Nominal case (positive and negative values)" ++ endl ++
      "2/1 + -121/5 = -111/5" ++ endl ++
      "2/1 - -121/5 = 131/5" ++ endl ++
      "2/1 * -121/5 = -242/5" ++ endl ++
      "2/1 / -121/5 = -10/121" ++ endl ++
      "2/1 > -121/5" ++ endl ++
      "2/1 >= -121/5" ++ endl ++
      "2/1 != -121/5" ++ endl ++
      endl ++
      "Test 3: Nominal case (negative values)" ++ endl ++
      "-1/11 + -1/3 = -14/33" ++ endl ++
      "-1/11 - -1/3 = 8/33" ++ endl ++
      "-1/11 * -1/3 = 1/33" ++ endl ++
      "-1/11 / -1/3 = 3/11" ++ endl ++
      "-1/11 > -1/3" ++ endl ++
      "-1/11 >= -1/3" ++ endl ++
      "-1/11 != -1/3" ++ endl ++
      endl ++
      "Test 4: limit test (with 0 et 1)" ++ endl ++
      "0/1 + 1/1 = 1/1" ++ endl ++
      "0/1 - 1/1 = -1/1" ++ endl ++
      "0/1 * 1/1 = 0/1" ++ endl ++
      "0/1 / 1/1 = 0/1" ++ endl ++
      "0/1 < 1/1" ++ endl ++
      "0/1 <= 1/1" ++ endl ++
      "0/1 != 1/1" ++ endl ++
      endl ++
      "Test 5: test of '0' and 'Inf'" ++ endl ++
      "Inf + 0/1 = Inf" ++ endl ++
      "Inf - 0/1 = Inf" ++ endl ++
      "Inf * 0/1 = NaN" ++ endl ++
      "Inf / 0/1 = Inf" ++ endl ++
      "Inf < 0/1" ++ endl ++
      "Inf <= 0/1" ++ endl ++
      "Inf != 0/1" ++ endl)%string,
     0).
Proof. vm_compute. reflexivity. Qed.

End Properties.

(** * The properties on [int32_t], the instance of the test driver *)

Lemma produced_canonical_witness :
  canonical (T := int32_t) {| m_num := 16; m_den := 15 |}.
Proof.
  apply (produced_canonical (T := int32_t)).
  apply (by_binary Plus {| m_num := 2; m_den := 3 |} {| m_num := 2; m_den := 5 |}).
  - constructor; simpl; (reflexivity || lia).
  - constructor; simpl; (reflexivity || lia).
  - vm_compute. reflexivity.
Defined.

Lemma Fraction2_canonical_witness :
  (T_min (T := int32_t) < 242 <= T_max (T := int32_t) ->
   T_min (T := int32_t) < -10 <= T_max (T := int32_t) ->
   exists f, Fraction2 (T := int32_t) 242 (-10) = Ok f) /\
  (forall f,
     Fraction2 (T := int32_t) 242 (-10) = Ok f ->
     Z.gcd (Z.abs (m_num f)) (m_den f) = 1 /\
     0 < m_den f /\
     (inject_Z (m_num f) / inject_Z (m_den f)
      == inject_Z 242 / inject_Z (-10))%Q).
Proof.
  apply (Fraction2_canonical (T := int32_t) 242 (-10)). lia.
Defined.

Lemma Fraction2_fixed_point_witness :
  Fraction2 (T := int32_t) (-121) 5 = Ok {| m_num := -121; m_den := 5 |}.
Proof.
  apply (Fraction2_fixed_point (T := int32_t) (-121) 5).
  - constructor; simpl; (reflexivity || lia).
  - vm_compute. intuition discriminate.
  - vm_compute. discriminate.
  - left. lia.
Defined.

Lemma op_gt_non_finite_witness :
  op_gt (T := int32_t) {| m_num := 1; m_den := 0 |} NaN = Ok false.
Proof.
  apply (op_gt_non_finite (T := int32_t)); reflexivity.
Defined.

Lemma NaN_absorbing_witness :
  binary (T := int32_t) Divide (Fraction1 7) NaN = Ok NaN /\
  binary (T := int32_t) Divide NaN (Fraction1 7) = Ok NaN /\
  assign (T := int32_t) Divide (Fraction1 7) (to_other NaN) = Ok NaN /\
  assign (T := int32_t) Divide NaN (to_other (Fraction1 7)) = Ok NaN /\
  assign (T := int32_t) Divide NaN to_this = Ok NaN.
Proof.
  apply (NaN_absorbing (T := int32_t) Divide (Fraction1 7) NaN). reflexivity.
Defined.

(** C3, as the specification has it, fails: the divisor NaN has the
    numerator 0 and the dividend 1/1 has not, and yet the quotient is a NaN,
    not an infinite. *)
Lemma op_div_by_zero_counterexample :
  m_num NaN = 0 /\ m_num (Fraction1 1) <> 0 /\
  op_div (T := int32_t) (Fraction1 1) NaN = Ok NaN /\
  isInf NaN = false /\ isNan NaN = true.
Proof.
  repeat split. simpl. lia.
Qed.

Lemma op_div_by_zero_witness :
  (exists r,
     op_div (T := int32_t) (Fraction1 5) Fraction0 = Ok r /\ m_den r = 0 /\
     (m_num (Fraction1 5) <> 0 -> m_den Fraction0 <> 0 -> isInf r = true) /\
     (m_num (Fraction1 5) = 0 \/ m_den Fraction0 = 0 -> isNan r = true)) /\
  (x <- Fraction2 (T := int32_t) 1 3 ;; y <- Fraction2 (T := int32_t) 0 5 ;;
   r <- op_div (T := int32_t) x y ;; Ok (isInf r)) = Ok true.
Proof.
  apply (op_div_by_zero (T := int32_t) (Fraction1 5) Fraction0).
  - vm_compute. intuition discriminate.
  - apply Fraction1_canonical.
  - reflexivity.
Defined.

Lemma ordering_trichotomy_witness :
  (T_min (T := int32_t) <= 2 * 5 <= T_max (T := int32_t) ->
   T_min (T := int32_t) <= -121 * 1 <= T_max (T := int32_t) ->
   exists greater,
     op_gt (T := int32_t) (Fraction1 2) {| m_num := -121; m_den := 5 |}
     = Ok greater) /\
  (forall greater,
     op_gt (T := int32_t) (Fraction1 2) {| m_num := -121; m_den := 5 |}
     = Ok greater ->
     exists less less_eq,
       op_lt (T := int32_t) (Fraction1 2) {| m_num := -121; m_den := 5 |}
       = Ok less /\
       op_le (T := int32_t) (Fraction1 2) {| m_num := -121; m_den := 5 |}
       = Ok less_eq /\
       exactly_one less
         (op_eq (Fraction1 2) {| m_num := -121; m_den := 5 |}) greater
       = true /\
       less_eq = negb greater).
Proof.
  apply (ordering_trichotomy (T := int32_t)
           (Fraction1 2) {| m_num := -121; m_den := 5 |}).
  - apply Fraction1_canonical.
  - constructor; simpl; (reflexivity || lia).
  - reflexivity.
  - reflexivity.
Defined.

Lemma PGCD_reached_terminates_witness :
  (m_num {| m_num := -242; m_den := 10 |} >= 0 -> PGCD_terminates (T := int32_t) (-242) 10) /\
  (m_num {| m_num := -242; m_den := 10 |} < 0 ->
   forall a, t_mul (T := int32_t) (-1) (-242) = Ok a ->
             PGCD_terminates (T := int32_t) a 10).
Proof.
  apply (PGCD_reached_terminates (T := int32_t)
           {| m_num := 242; m_den := -10 |} {| m_num := -242; m_den := 10 |}).
  - vm_compute. intuition discriminate.
  - vm_compute. intuition discriminate.
  - simpl. lia.
  - reflexivity.
Defined.

(** C4, as the specification has it, fails: the sum is not 14/15, and the
    difference is not 27/1 and is not written "27/1". *)
Lemma arithmetic_identities_counterexample :
  (f1 <- Fraction2 (T := int32_t) 100 150 ;;
   f2 <- Fraction2 (T := int32_t) 2 5 ;;
   f <- op_plus (T := int32_t) f1 f2 ;;
   e <- Fraction2 (T := int32_t) 14 15 ;; Ok (op_eq f e)) = Ok false /\
  (f3 <- Fraction2 (T := int32_t) 30 15 ;;
   f4 <- Fraction2 (T := int32_t) 242 (-10) ;;
   f <- op_minus (T := int32_t) f3 f4 ;;
   e <- Fraction2 (T := int32_t) 27 1 ;; Ok (op_eq f e)) = Ok false /\
  (f3 <- Fraction2 (T := int32_t) 30 15 ;;
   f4 <- Fraction2 (T := int32_t) 242 (-10) ;;
   f <- op_minus (T := int32_t) f3 f4 ;; Ok (op_out f)) <> Ok "27/1"%string.
Proof.
  repeat split. vm_compute. discriminate.
Qed.

(** ** Further properties *)

Ltac computed :=
  first [ reflexivity
        | lia
        | constructor; simpl; (reflexivity || lia)
        | vm_compute; intuition discriminate ].

Lemma Fraction2_whole_witness :
  Fraction2 (T := int32_t) 7 1 = Ok (Fraction1 7) /\
  Fraction2 (T := int32_t) 0 33 = Ok Fraction0.
Proof. apply (Fraction2_whole (T := int32_t) 7 33); computed. Defined.

Lemma Fraction2_equal_iff_witness :
  op_eq {| m_num := 2; m_den := 3 |} {| m_num := 2; m_den := 3 |} = true
  <-> 100 * 3 = 2 * 150.
Proof.
  apply (Fraction2_equal_iff (T := int32_t) 100 150 2 3); computed.
Defined.

Lemma Fraction2_returns_iff_witness :
  ((exists f, Fraction2 (T := int32_t) 1 (-2147483648) = Ok f) <->
   T_min (T := int32_t) < 1 /\ T_min (T := int32_t) < -2147483648) /\
  (1 = T_min (T := int32_t) \/ -2147483648 = T_min (T := int32_t) ->
   Fraction2 (T := int32_t) 1 (-2147483648) = UB signed_overflow).
Proof.
  apply (Fraction2_returns_iff (T := int32_t) 1 (-2147483648)); computed.
Defined.

Lemma reduction_idempotent_witness :
  reduction (T := int32_t) {| m_num := 2; m_den := 3 |}
  = Ok {| m_num := 2; m_den := 3 |}.
Proof.
  apply (reduction_idempotent (T := int32_t) {| m_num := 100; m_den := 150 |}).
  computed.
Defined.

Lemma reduction_keeps_value_witness :
  isFinite {| m_num := 2; m_den := 3 |} = true /\
  (value {| m_num := 2; m_den := 3 |}
   == value {| m_num := -100; m_den := -150 |})%Q.
Proof.
  apply (reduction_keeps_value (T := int32_t)
           {| m_num := -100; m_den := -150 |}); computed.
Defined.

Lemma PGCD_total_witness :
  (-10 = 0 -> PGCD (T := int32_t) (-242) (-10) = UB division_by_zero) /\
  (-10 <> 0 ->
   exists g, PGCD (T := int32_t) (-242) (-10) = Ok g /\
             Z.abs g = Z.gcd (-242) (-10)).
Proof. apply (PGCD_total (T := int32_t) (-242) (-10)); computed. Defined.

Lemma PGCD_turns_witness :
  exists n,
    PGCD_runs (T := int32_t) n 242 10 (Z.gcd 242 10) /\
    Z.of_nat n <= 2 * Z.log2 10 + 2.
Proof. apply (PGCD_turns (T := int32_t) 242 10); computed. Defined.

Lemma binary_exact_witness :
  isFinite {| m_num := 5; m_den := 3 |} = true /\
  (value {| m_num := 5; m_den := 3 |}
   == Q_op Divide (value {| m_num := 2; m_den := 3 |})
                  (value {| m_num := 2; m_den := 5 |}))%Q.
Proof.
  apply (binary_exact (T := int32_t) Divide); computed.
Defined.

Lemma binary_returns_witness :
  exists r,
    binary (T := int32_t) Minus {| m_num := 2; m_den := 1 |}
      {| m_num := -121; m_den := 5 |} = Ok r /\
    assign (T := int32_t) Minus {| m_num := 2; m_den := 1 |}
      (to_other {| m_num := -121; m_den := 5 |}) = Ok r.
Proof.
  apply (binary_returns (T := int32_t) Minus); try (left; computed); computed.
Defined.

Lemma neutral_elements_witness :
  op_plus (T := int32_t) {| m_num := -121; m_den := 5 |} Fraction0
  = Ok {| m_num := -121; m_den := 5 |} /\
  op_minus (T := int32_t) {| m_num := -121; m_den := 5 |} Fraction0
  = Ok {| m_num := -121; m_den := 5 |} /\
  op_mul (T := int32_t) {| m_num := -121; m_den := 5 |} (Fraction1 1)
  = Ok {| m_num := -121; m_den := 5 |} /\
  op_div (T := int32_t) {| m_num := -121; m_den := 5 |} (Fraction1 1)
  = Ok {| m_num := -121; m_den := 5 |}.
Proof.
  apply (neutral_elements (T := int32_t) {| m_num := -121; m_den := 5 |});
    computed.
Defined.

Lemma self_inverse_witness :
  op_minus (T := int32_t) {| m_num := -121; m_den := 5 |}
    {| m_num := -121; m_den := 5 |} = Ok Fraction0 /\
  op_mul (T := int32_t) {| m_num := -121; m_den := 5 |} Fraction0
  = Ok Fraction0 /\
  (m_num {| m_num := -121; m_den := 5 |} <> 0 ->
   op_div (T := int32_t) {| m_num := -121; m_den := 5 |}
     {| m_num := -121; m_den := 5 |} = Ok (Fraction1 1)).
Proof.
  apply (self_inverse (T := int32_t) {| m_num := -121; m_den := 5 |});
    computed.
Defined.

Lemma self_assignment_witness :
  assign (T := int32_t) Divide {| m_num := -1; m_den := 2 |} to_this
  = Ok {| m_num := 1; m_den := 2 |}.
Proof.
  apply (self_assignment (T := int32_t) {| m_num := -1; m_den := 2 |});
    computed.
Defined.

Lemma inverse_undoes_witness :
  {| m_num := 5; m_den := 3 |} = {| m_num := 5; m_den := 3 |}.
Proof.
  apply (inverse_undoes (T := int32_t) Divide
           {| m_num := 5; m_den := 3 |} {| m_num := 2; m_den := 5 |}
           {| m_num := 25; m_den := 6 |}); computed.
Defined.

Lemma non_finite_arithmetic_witness :
  op_plus (T := int32_t) {| m_num := 1; m_den := 0 |}
    {| m_num := 1; m_den := 0 |} = Ok NaN /\
  op_minus (T := int32_t) {| m_num := 1; m_den := 0 |}
    {| m_num := 1; m_den := 0 |} = Ok NaN /\
  op_div (T := int32_t) {| m_num := 1; m_den := 0 |}
    {| m_num := 1; m_den := 0 |} = Ok NaN /\
  (T_min (T := int32_t) <= 1 * 1 <= T_max (T := int32_t) ->
   op_mul (T := int32_t) {| m_num := 1; m_den := 0 |}
     {| m_num := 1; m_den := 0 |} = Ok {| m_num := 1 * 1; m_den := 0 |}).
Proof.
  apply (non_finite_arithmetic (T := int32_t) {| m_num := 1; m_den := 0 |}
           {| m_num := 1; m_den := 0 |}); computed.
Defined.

Lemma infinite_plus_finite_witness :
  exists r,
    op_plus (T := int32_t) {| m_num := 1; m_den := 0 |}
      {| m_num := 1; m_den := 2 |} = Ok r /\
    op_minus (T := int32_t) {| m_num := 1; m_den := 0 |}
      {| m_num := 1; m_den := 2 |} = Ok r /\
    op_plus (T := int32_t) {| m_num := 1; m_den := 2 |}
      {| m_num := 1; m_den := 0 |} = Ok r /\
    isInf r = true /\ m_num r = 1 * 2.
Proof.
  apply (infinite_plus_finite (T := int32_t) {| m_num := 1; m_den := 0 |}
           {| m_num := 1; m_den := 2 |}); computed.
Defined.

Lemma infinite_divisor_witness :
  op_div (T := int32_t) {| m_num := 1; m_den := 2 |}
    {| m_num := -3; m_den := 0 |} = Ok Fraction0 /\
  op_mul (T := int32_t) {| m_num := -3; m_den := 0 |} Fraction0 = Ok NaN.
Proof.
  apply (infinite_divisor (T := int32_t) {| m_num := -3; m_den := 0 |}
           {| m_num := 1; m_den := 2 |}); computed.
Defined.

Lemma op_eq_value_witness :
  op_eq {| m_num := 2; m_den := 3 |} {| m_num := 2; m_den := 5 |} = true
  <-> (value {| m_num := 2; m_den := 3 |}
       == value {| m_num := 2; m_den := 5 |})%Q.
Proof.
  apply (op_eq_value (T := int32_t)); computed.
Defined.

Lemma infinite_not_normalised_witness :
  exists i1 i2,
    op_div (T := int32_t) (Fraction1 1) Fraction0 = Ok i1 /\
    op_div (T := int32_t) (Fraction1 2) Fraction0 = Ok i2 /\
    isInf i1 = true /\ isInf i2 = true /\ op_eq i1 i2 = false.
Proof.
  apply (infinite_not_normalised (T := int32_t) 1 2); computed.
Defined.

Lemma op_gt_value_witness :
  true = true
  <-> (value {| m_num := 2; m_den := 5 |}
       < value {| m_num := 2; m_den := 3 |})%Q.
Proof.
  apply (op_gt_value (T := int32_t) {| m_num := 2; m_den := 3 |}
           {| m_num := 2; m_den := 5 |} true); computed.
Defined.

Lemma infinite_order_witness :
  op_gt (T := int32_t) {| m_num := -1; m_den := 0 |} Fraction0
  = Ok (0 <? -1) /\
  op_lt (T := int32_t) {| m_num := -1; m_den := 0 |} Fraction0
  = Ok (-1 <? 0).
Proof.
  apply (infinite_order (T := int32_t) {| m_num := -1; m_den := 0 |}
           Fraction0); computed.
Defined.


Lemma op_le_order_witness :
  (forall b,
     op_le (T := int32_t) Fraction0 (Fraction1 1) = Ok b ->
     exists less,
       op_lt (T := int32_t) Fraction0 (Fraction1 1) = Ok less /\
       b = less || op_eq Fraction0 (Fraction1 1)) /\
  (op_le (T := int32_t) Fraction0 (Fraction1 1) = Ok true ->
   op_le (T := int32_t) (Fraction1 1) Fraction0 = Ok true ->
   Fraction0 = Fraction1 1).
Proof.
  apply (op_le_order (T := int32_t) Fraction0 (Fraction1 1));
    first [apply Fraction1_canonical | reflexivity].
Defined.

Lemma op_out_injective_witness :
  {| m_num := -121; m_den := 5 |} = {| m_num := -121; m_den := 5 |}.
Proof.
  apply (op_out_injective {| m_num := -121; m_den := 5 |}); reflexivity.
Defined.
